(** * Kites: extension lifecycle orchestration

    A shallow embedding of the Kites engine
    ([packages/core/src/engine/kites.ts], class [KitesInstance]) and of its
    extensions manager ([extensions-manager.ts], class [ExtensionsManager]),
    together with the properties of registration, configuration merging,
    allow-list filtering, activation order, failure propagation and the
    readiness protocol.

    JavaScript objects are finite maps from property names to values,
    asynchronous code is run on an explicit FIFO queue of promise jobs, and
    everything observable (logger calls, emitted notifications, entry-point
    invocations, promise settlements) is recorded in a trace of events. *)

From Stdlib Require Import ZArith Ascii String.
From stdpp Require Import base option list sorting strings pretty gmap fin_maps.

Local Open Scope string_scope.
Local Open Scope list_scope.

(** ** JavaScript values *)

(** The values stored in the configuration mapping.  Numbers are integers
    (no NaN, no fractions); functions and promises are modelled apart. *)
#[warnings="-register-all"]
Inductive jsval : Type :=
| JUndefined
| JNull
| JBool (b : bool)
| JNum (z : Z)
| JStr (s : string)
| JArr (elems : list jsval)
| JObj (fields : gmap string jsval).

(** ToBoolean: what [if (v)], [v || d] and [v && w] test. *)
Definition truthy (v : jsval) : bool :=
  match v with
  | JUndefined | JNull => false
  | JBool b => b
  | JNum z => negb (z =? 0)%Z
  | JStr s => negb (String.eqb s "")
  | JArr _ | JObj _ => true
  end.

(** [v === false] *)
Definition is_false (v : jsval) : bool :=
  match v with JBool false => true | _ => false end.

(** [v === true] *)
Definition is_true (v : jsval) : bool :=
  match v with JBool true => true | _ => false end.

(** [o[k]] for an object given by its property map: a missing property reads
    as [undefined]. *)
Definition get (o : gmap string jsval) (k : string) : jsval :=
  default JUndefined (o !! k).

(** [v[k]] where [v] is any value other than [undefined] and [null]
    (primitives and arrays have none of the properties read here). *)
Definition prop (v : jsval) (k : string) : jsval :=
  match v with
  | JObj o => get o k
  | _ => JUndefined
  end.

(** [o[k] = v] performed once per pair, in order. *)
Definition assign_props (ws : list (string * jsval)) (o : gmap string jsval)
  : gmap string jsval :=
  foldl (fun acc kv => <[kv.1 := kv.2]> acc) o ws.

(** ** Strings *)

(** [String.prototype.toLowerCase], on the ASCII letters. *)
Definition lower_ascii (c : ascii) : ascii :=
  let n := nat_of_ascii c in
  if (65 <=? n)%nat && (n <=? 90)%nat then ascii_of_nat (n + 32) else c.

Fixpoint toLowerCase (s : string) : string :=
  match s with
  | EmptyString => EmptyString
  | String c r => String (lower_ascii c) (toLowerCase r)
  end.

(** [s.split(sep)] for a one-character separator: always at least one
    token; [n] separators give [n + 1] tokens. *)
Fixpoint split (sep : ascii) (s : string) : list string :=
  match s with
  | EmptyString => [""]
  | String c r =>
      if Ascii.eqb c sep then "" :: split sep r
      else match split sep r with
           | t :: ts => String c t :: ts
           | [] => [String c ""]
           end
  end.

(** [hay.indexOf(needle) > -1] for two strings. *)
Definition includes (needle hay : string) : bool :=
  match String.index 0 needle hay with Some _ => true | None => false end.

(** [needle] occurs somewhere inside [hay]. *)
Definition contains (needle hay : string) : Prop :=
  exists pre post, hay = pre +:+ needle +:+ post.

(** What a template literal prints for a property that is a string or
    [undefined]. *)
Definition render (s : option string) : string :=
  match s with Some x => x | None => "undefined" end.

(** ** Functions, failures and promises *)

(** A value raised by extension code with [throw] (or used to reject a
    promise). Only the [stack] property is ever read back. *)
Inductive thrown : Type :=
| ThrownError (message stack : string)   (* an [Error] instance *)
| ThrownString (s : string)              (* a string: it has no [stack] *)
| ThrownNullish.                         (* [null] or [undefined] *)

(** What a promise of the runtime is rejected with. *)
Inductive rejection : Type :=
| ByExtension (t : thrown)       (* a value raised by extension code *)
| NewError (message : string)    (* [new Error(message)] *)
| TypeError.                     (* raised by the engine itself *)

(** A settled promise. [R] is the type of rejection reasons. *)
Inductive settled (R : Type) : Type :=
| Fulfilled
| Rejected (reason : R).
Arguments Fulfilled {R}.
Arguments Rejected {R} reason.

(** What a called function hands back. The callers studied here never look
    at it. *)
Inductive returned : Type :=
(** a value that is not a pending promise *)
| Plain
(** a promise still pending: the asynchronous work behind it goes on in
    promise jobs of its own, [hops] of them before the one that settles the
    promise with [o] *)
| Async (hops : nat) (o : settled thrown)
(** a promise that no promise job settles: it waits for a timer or for
    input and output *)
| Later.

Inductive completion : Type :=
| Returns (v : returned)
| Throws (t : thrown).

(** A deferred initializer: a zero-argument asynchronous operation added to
    [kites.initializeListeners]. *)
Record initializer : Type := {
  li_label : string;
  li_result : settled thrown;
}.

(** An activation function [(kites, extension) => ...], by what a call of it
    does: the properties it sets on [extension.options] and the deferred
    initializers it adds, in this order, and then how the call completes. *)
Record jsfunction : Type := {
  fn_name : string;                          (* [Function.prototype.name] *)
  fn_sets : list (string * jsval);
  fn_initializers : list initializer;
  fn_completion : completion;
}.

(** ** Extension descriptors ([KitesExtension]) *)

Inductive main_field : Type :=
| MainFunction (f : jsfunction)
| MainString (p : string)
| MainOther.                     (* absent, or neither function nor string *)

Module Extension.

Record t : Type := {
  name : option string;
  dependencies : list string;
  directory : option string;
  main : main_field;
  init : option jsfunction;
  options : option (gmap string jsval);
}.

Definition with_options (o : gmap string jsval) (e : t) : t :=
  {| name := name e; dependencies := dependencies e;
     directory := directory e; main := main e; init := init e;
     options := Some o |}.

End Extension.

(** [!s] for a property that is a string or [undefined]. *)
Definition blank (s : option string) : bool :=
  match s with
  | None => true
  | Some x => String.eqb x ""
  end.

(** ** The host: Node.js, the libraries and the modules this code imports *)

(** The options passed to [discover] by [ExtensionsManager.init]. *)
Record DiscoverOptions : Type := {
  cacheAvailableExtensions : jsval;
  extensionsLocationCache : jsval;
  env : jsval;
  depth : jsval;
  rootDirectory : list jsval;
  tempDirectory : jsval;
}.

Class Host : Type := {
  os_EOL : string;
  appRoot : string;                       (* [appRoot.toString()] *)
  NODE_ENV : option string;               (* [process.env.NODE_ENV] *)
  parent_dirname : string;                (* [path.dirname(parent.filename)] *)
  engine_root : string;                   (* [path.resolve(__dirname, '../../../')] *)
  path_isAbsolute : string -> bool;
  path_join : string -> string -> string;
  fs_existsSync : string -> bool;
  (** [require(p).call(...)]: the module's activation function, or what
      loading the module (or calling a module that is not callable) raises *)
  require : string -> thrown + jsfunction;
  (** [nconf.argv().env(..).env(..).defaults(options)], then [file] when a
      configuration file is given, then [nconf.get()] *)
  nconf_get : gmap string jsval -> option string -> gmap string jsval;
  (** [discover] of [./discover]: the descriptors a scan yields *)
  discover_extensions : DiscoverOptions -> list Extension.t;
  (** [Array.prototype.sort] with the comparator of [./sorter] *)
  sort_extensions : list Extension.t -> list Extension.t;
  (** sorting rearranges the descriptors and does nothing else *)
  sort_extensions_perm : forall l, sort_extensions l ≡ₚ l;
}.

(** ** The runtime instance and its extensions manager *)

(** The mutable state of one [KitesInstance] together with the
    [ExtensionsManager] it owns. *)
Record Kites : Type := {
  options : gmap string jsval;              (* [kites.options] *)
  usedExtensions : list Extension.t;
  availableExtensions : list Extension.t;
  initializeListeners : list initializer;
  (** the callback set with [afterConfigLoaded], by the properties it sets
      on [kites.options] *)
  fnAfterConfigLoaded : list (string * jsval);
  (** callbacks attached to [isReady] with [ready], by label *)
  readyCallbacks : list string;
  initialized : bool;
  loggerSilent : bool;                      (* transports silenced *)
}.

Definition with_kites_options (o : gmap string jsval) (k : Kites) : Kites :=
  {| options := o; usedExtensions := usedExtensions k;
     availableExtensions := availableExtensions k;
     initializeListeners := initializeListeners k;
     fnAfterConfigLoaded := fnAfterConfigLoaded k;
     readyCallbacks := readyCallbacks k; initialized := initialized k;
     loggerSilent := loggerSilent k |}.

Definition with_used (l : list Extension.t) (k : Kites) : Kites :=
  {| options := options k; usedExtensions := l;
     availableExtensions := availableExtensions k;
     initializeListeners := initializeListeners k;
     fnAfterConfigLoaded := fnAfterConfigLoaded k;
     readyCallbacks := readyCallbacks k; initialized := initialized k;
     loggerSilent := loggerSilent k |}.

Definition with_available (l : list Extension.t) (k : Kites) : Kites :=
  {| options := options k; usedExtensions := usedExtensions k;
     availableExtensions := l;
     initializeListeners := initializeListeners k;
     fnAfterConfigLoaded := fnAfterConfigLoaded k;
     readyCallbacks := readyCallbacks k; initialized := initialized k;
     loggerSilent := loggerSilent k |}.

Definition with_listeners (l : list initializer) (k : Kites) : Kites :=
  {| options := options k; usedExtensions := usedExtensions k;
     availableExtensions := availableExtensions k;
     initializeListeners := l;
     fnAfterConfigLoaded := fnAfterConfigLoaded k;
     readyCallbacks := readyCallbacks k; initialized := initialized k;
     loggerSilent := loggerSilent k |}.

Definition with_after_config (ws : list (string * jsval)) (k : Kites) : Kites :=
  {| options := options k; usedExtensions := usedExtensions k;
     availableExtensions := availableExtensions k;
     initializeListeners := initializeListeners k;
     fnAfterConfigLoaded := ws;
     readyCallbacks := readyCallbacks k; initialized := initialized k;
     loggerSilent := loggerSilent k |}.

Definition with_ready (l : list string) (k : Kites) : Kites :=
  {| options := options k; usedExtensions := usedExtensions k;
     availableExtensions := availableExtensions k;
     initializeListeners := initializeListeners k;
     fnAfterConfigLoaded := fnAfterConfigLoaded k;
     readyCallbacks := l; initialized := initialized k;
     loggerSilent := loggerSilent k |}.

Definition with_initialized (b : bool) (k : Kites) : Kites :=
  {| options := options k; usedExtensions := usedExtensions k;
     availableExtensions := availableExtensions k;
     initializeListeners := initializeListeners k;
     fnAfterConfigLoaded := fnAfterConfigLoaded k;
     readyCallbacks := readyCallbacks k; initialized := b;
     loggerSilent := loggerSilent k |}.

Definition with_silent (b : bool) (k : Kites) : Kites :=
  {| options := options k; usedExtensions := usedExtensions k;
     availableExtensions := availableExtensions k;
     initializeListeners := initializeListeners k;
     fnAfterConfigLoaded := fnAfterConfigLoaded k;
     readyCallbacks := readyCallbacks k; initialized := initialized k;
     loggerSilent := b |}.

(** ** Observable events *)

Inductive level : Type := Debug | Info | Error.

(** The messages handed to the logger, by template and arguments. *)
Inductive logmsg : Type :=
| Initializing (env : jsval) (configFile : option jsval)
| KitesInitialized
| DisabledSkipping (name : option string)
| WasDisabled (name : option string)
| Discovered (n : nat)
| AutodiscoverOff
| Text (s : string).

Inductive event : Type :=
| Log (l : level) (m : logmsg)
(** the entry point of the [i]-th descriptor handed to [useMany] is called *)
| Invoke (i : nat)
(** the promise the entry point of the [i]-th descriptor returned is
    settled by the work behind it *)
| ReturnedSettled (i : nat) (o : settled thrown)
(** [emit('extension:registered', extension)] for the [i]-th descriptor *)
| Registered (i : nat)
(** the promise returned by [useOne] for the [i]-th descriptor is settled *)
| Settled (i : nat) (o : settled rejection)
(** the promise returned by [useMany] is settled *)
| AllSettled (o : settled rejection)
(** [fnAfterConfigLoaded(this)] *)
| AfterConfigLoaded
(** a deferred initializer is called *)
| Fired (label : string)
(** [emit('initialized', this)], with the value [this.isInitialized]
    has while the listeners run *)
| EmitInitialized (isInitialized : bool)
(** a callback attached with [ready] runs, with the value of
    [kites.isInitialized] it sees *)
| ReadyCallback (label : string) (isInitialized : bool).

(** The positions whose entry point a trace shows invoked, in order. *)
Definition invoked (tr : list event) : list nat :=
  omap (fun ev => match ev with Invoke i => Some i | _ => None end) tr.

Definition is_invoke (ev : event) : bool :=
  match ev with Invoke _ => true | _ => false end.

Definition is_settled (i : nat) (ev : event) : bool :=
  match ev with
  | Settled j _ | ReturnedSettled j _ => Nat.eqb i j
  | _ => false
  end.

Definition is_registered (i : nat) (ev : event) : bool :=
  match ev with Registered j => Nat.eqb i j | _ => false end.

(** The events about the activation of the [i]-th descriptor. *)
Definition about (i : nat) (ev : event) : bool :=
  match ev with
  | Invoke j | ReturnedSettled j _ | Registered j | Settled j _ => Nat.eqb i j
  | _ => false
  end.

(** The events the extensions manager leaves: what it logs (at the levels
    [debug] and [error]) and what the activations do. *)
Definition from_manager (ev : event) : bool :=
  match ev with
  | Log Debug _ | Log Error _ | Invoke _ | ReturnedSettled _ _
  | Registered _ | Settled _ _ | AllSettled _ => true
  | _ => false
  end.

(** What an operation that may raise gives back. *)
Inductive result (A : Type) : Type :=
| Ok (a : A)
| Raise (r : rejection).
Arguments Ok {A} a.
Arguments Raise {A} r.

(** The argument of [use]: a function or a descriptor. *)
Inductive use_arg : Type :=
| UseFunction (f : jsfunction)
| UseDescriptor (e : Extension.t).

(** A configuration value used as a path or a name. *)
Definition as_string (v : jsval) : option string :=
  match v with JStr s => Some s | _ => None end.

(** ** Activation: [useOne], [useMany] and the promise jobs they create *)

(** The own enumerable properties [_.assign] copies from a source: those of
    an object, the elements of an array and the characters of a string under
    their indices, nothing from any other value. *)
Definition indexed (l : list jsval) : gmap string jsval :=
  list_to_map (imap (fun i v => (pretty i, v)) l).

Definition own_props (v : jsval) : gmap string jsval :=
  match v with
  | JObj o => o
  | JArr l => indexed l
  | JStr s =>
      indexed ((fun c => JStr (String c EmptyString)) <$> list_ascii_of_string s)
  | _ => ∅
  end.

(** [extension.name && extension.name.toLowerCase()], used as a property
    name. *)
Definition namespace_key (name : option string) : string :=
  match name with
  | None => "undefined"
  | Some n => if String.eqb n "" then "" else toLowerCase n
  end.

(** [_.assign({}, defaults, overrides)] *)
Definition assign (defaults : option (gmap string jsval)) (overrides : jsval)
  : gmap string jsval :=
  own_props overrides ∪ default ∅ defaults.

(** The promise jobs of one [useOne] chain
    [Promise.resolve().then(f1).then(f2).catch(f3)], and of the reaction
    [Promise.all] attaches to its result. [i] is the position of the
    descriptor in the array given to [useMany]. *)
Inductive job : Type :=
(** reaction of the resolved promise: runs [f1] *)
| FirstThen (i : nat) (e : Extension.t)
(** [f1] returned the promise [o]: the job that calls its [then] *)
| ResolveThenable (i : nat) (e : Extension.t) (o : settled thrown)
(** reaction of the returned promise: settles the promise of [then(f1)] *)
| Adopt (i : nat) (e : Extension.t) (o : settled thrown)
(** reaction of the promise of [then(f1)]: runs [f2], or passes a rejection on *)
| SecondThen (i : nat) (e : Extension.t) (o : settled thrown)
(** reaction of the promise of [then(f2)]: passes a value on, or runs [f3] *)
| Catch (i : nat) (e : Extension.t) (o : settled thrown)
(** reaction of the promise returned by [useOne], attached by [Promise.all] *)
| AllElement (i : nat) (o : settled rejection)
(** a job of the asynchronous work an entry point has started; after
    [hops] more of them the promise the entry point returned is settled *)
| Work (i : nat) (hops : nat) (o : settled thrown).

(** What the jobs share: the state of the [Promise.all] promise and the
    deferred initializers added so far. *)
Record sched : Type := {
  remaining : nat;                          (* elements not yet fulfilled *)
  all_result : option (settled rejection);  (* [None]: pending *)
  added : list initializer;
}.

(** The entry point [f1] selects. *)
Inductive entry : Type :=
| Callable (f : jsfunction)
| LoadFails (t : thrown)
| Invalid.

(** What an asynchronous method leaves behind: the events in order, the
    state of the promise it returned ([None]: never settled) and the
    instance. *)
Record run : Type := {
  trace : list event;
  promise : option (settled rejection);
  state : Kites;
}.

Module ExtensionsManager.

(** [use(extension)] *)
Definition use (extension : use_arg) (k : Kites) : Kites :=
  match extension with
  | UseFunction f =>
      with_used
        (usedExtensions k ++
           [ {| Extension.dependencies := [];
                Extension.directory :=
                  as_string (get (options k) "parentModuleDirectory");
                Extension.main := MainFunction f;
                Extension.name :=
                  Some (if String.eqb (fn_name f) "" then "<no-name>"
                        else fn_name f);
                Extension.init := None;
                Extension.options := None |} ])
        k
  | UseDescriptor e => with_used (usedExtensions k ++ [e]) k
  end.

Section WithHost.
Context `{Host}.

Definition init_entry (e : Extension.t) : entry :=
  match Extension.init e with
  | Some f => Callable f
  | None => Invalid
  end.

Definition entry_of (e : Extension.t) : entry :=
  match Extension.main e with
  | MainFunction f => Callable f
  | MainString p =>
      match Extension.directory e with
      | Some d =>
          if String.eqb d "" then init_entry e
          else match require (path_join d p) with
               | inl t => LoadFails t
               | inr f => Callable f
               end
      | None => init_entry e
      end
  | MainOther => init_entry e
  end.

(** [options.enabled === false] for the options object of a descriptor *)
Definition disabled (e : Extension.t) : bool :=
  is_false (get (default ∅ (Extension.options e)) "enabled").

(** [e.stack] as read by [f3]: [None] when reading it raises. *)
Definition stack_of (t : thrown) : option (option string) :=
  match t with
  | ThrownError _ st => Some (Some st)
  | ThrownString _ => Some None
  | ThrownNullish => None
  end.

(** The message built by [f3]. *)
Definition errorMsg (e : Extension.t) (stack : option string) : string :=
  if blank (Extension.name e)
  then "Error when loading anonymous extension "
       +:+ match Extension.directory e with
           | Some d => " at " +:+ d
           | None => ""
           end
       +:+ os_EOL +:+ render stack
  else "Error when loading extension " +:+ render (Extension.name e)
       +:+ os_EOL +:+ render stack.

(** The reason the promise returned by [useOne] is rejected with when [f3]
    receives [t]. *)
Definition rethrown (e : Extension.t) (t : thrown) : rejection :=
  match stack_of t with
  | Some st => NewError (errorMsg e st)
  | None => TypeError
  end.

(** One promise job: the events it produces, the shared state it leaves and
    the jobs it puts at the end of the queue. *)
Definition run_job (j : job) (s : sched) : list event * sched * list job :=
  match j with
  | FirstThen i e =>
      match entry_of e with
      | Callable f =>
          let e' :=
            Extension.with_options
              (assign_props (fn_sets f) (default ∅ (Extension.options e))) e in
          let s' := {| remaining := remaining s; all_result := all_result s;
                       added := added s ++ fn_initializers f |} in
          match fn_completion f with
          | Throws t => ([Invoke i], s', [SecondThen i e' (Rejected t)])
          | Returns (Async hops o) =>
              ([Invoke i], s',
               [Work i hops o; ResolveThenable i e' Fulfilled])
          | Returns _ => ([Invoke i], s', [ResolveThenable i e' Fulfilled])
          end
      | LoadFails t => ([], s, [SecondThen i e (Rejected t)])
      | Invalid =>
          ([], s,
           [ResolveThenable i e
              (Rejected (ThrownString ("Invalid kites extension: "
                                       +:+ render (Extension.name e))))])
      end
  | ResolveThenable i e o => ([], s, [Adopt i e o])
  | Adopt i e o => ([], s, [SecondThen i e o])
  | SecondThen i e Fulfilled =>
      (if disabled e then [Log Debug (WasDisabled (Extension.name e))]
       else [Registered i],
       s, [Catch i e Fulfilled])
  | SecondThen i e (Rejected t) => ([], s, [Catch i e (Rejected t)])
  | Catch i e Fulfilled =>
      ([Settled i Fulfilled], s, [AllElement i Fulfilled])
  | Catch i e (Rejected t) =>
      (match stack_of t with
       | Some st => [Log Error (Text (errorMsg e st))]
       | None => []
       end ++ [Settled i (Rejected (rethrown e t))],
       s, [AllElement i (Rejected (rethrown e t))])
  | AllElement i Fulfilled =>
      let n := pred (remaining s) in
      match all_result s with
      | None =>
          if Nat.eqb n 0
          then ([AllSettled Fulfilled],
                {| remaining := n; all_result := Some Fulfilled;
                   added := added s |}, [])
          else ([], {| remaining := n; all_result := None; added := added s |},
                [])
      | Some o => ([], {| remaining := n; all_result := Some o;
                          added := added s |}, [])
      end
  | AllElement i (Rejected r) =>
      match all_result s with
      | None => ([AllSettled (Rejected r)],
                 {| remaining := remaining s; all_result := Some (Rejected r);
                    added := added s |}, [])
      | Some _ => ([], s, [])
      end
  | Work i (S hops) o => ([], s, [Work i hops o])
  | Work i 0 o => ([ReturnedSettled i o], s, [])
  end.

(** The jobs of the work of an entry point. *)
Definition is_work (j : job) : bool :=
  match j with Work _ _ _ => true | _ => false end.


(** The job queue as far as the manager is concerned: it is run as long as
    a job of a chain or of [Promise.all] is in it. The jobs left are those
    of work the entry points have started and that is still going on; when
    they run, among whatever the program does next, is not followed. *)
Fixpoint drain (fuel : nat) (q : list job) (s : sched)
  : list event * sched * list job :=
  match fuel, q with
  | S fuel', j :: q' =>
      if forallb is_work q then ([], s, q)
      else
        let '(ev, s', js) := run_job j s in
        let '(evs, s'', rest) := drain fuel' (q' ++ js) s' in
        (ev ++ evs, s'', rest)
  | _, _ => ([], s, q)
  end.

(** An upper bound on the jobs a job leads to, itself included. *)
Definition weight (j : job) : nat :=
  match j with
  | FirstThen _ e =>
      match entry_of e with
      | Callable f =>
          match fn_completion f with
          | Returns (Async hops _) => 7 + hops
          | _ => 6
          end
      | _ => 6
      end
  | ResolveThenable _ _ _ => 5
  | Adopt _ _ _ => 4
  | SecondThen _ _ _ => 3
  | Catch _ _ _ => 2
  | AllElement _ _ => 1
  | Work _ hops _ => S hops
  end.

Definition total_weight (q : list job) : nat := sum_list_with weight q.

(** The jobs a job enqueues; they do not depend on the shared state. *)
Definition next (j : job) : list job :=
  (run_job j {| remaining := 0; all_result := None; added := [] |}).2.

(** The jobs of [q] run one after the other, what they enqueue left aside. *)
Fixpoint run_all (q : list job) (s : sched) : list event * sched :=
  match q with
  | [] => ([], s)
  | j :: q' =>
      let '(ev, s', _) := run_job j s in
      let '(evs, s'') := run_all q' s' in
      (ev ++ evs, s'')
  end.

(** The position of the descriptor a job belongs to. *)
Definition job_index (j : job) : nat :=
  match j with
  | FirstThen i _ | ResolveThenable i _ _ | Adopt i _ _
  | SecondThen i _ _ | Catch i _ _ | AllElement i _ | Work i _ _ => i
  end.

Definition is_first (j : job) : bool :=
  match j with FirstThen _ _ => true | _ => false end.

Definition is_all_element (j : job) : bool :=
  match j with AllElement _ _ => true | _ => false end.


(** The jobs of a queue that belong to a chain of [useOne] or to
    [Promise.all]: at most one per descriptor at any time. *)
Definition chain_jobs (q : list job) : nat :=
  sum_list_with (fun j => if is_work j then 0 else 1)%nat q.

(** The synchronous part of [useOne(extension)]: the descriptor with its
    merged options, the events, and the promise it returns, which is either
    [Promise.resolve()] or a pending chain whose first job is queued. *)
Definition useOne (i : nat) (extension : Extension.t) (k : Kites)
  : Extension.t * list event * option job :=
  let options_ :=
    assign (Extension.options extension)
           (get (options k) (namespace_key (Extension.name extension))) in
  let extension' := Extension.with_options options_ extension in
  if is_false (get options_ "enabled")
  then (extension',
        [Log Debug (DisabledSkipping (Extension.name extension));
         Settled i Fulfilled],
        None)
  else (extension', [], Some (FirstThen i extension')).

(** [extensions.map((e) => this.useOne(e))], from position [i] on. *)
Fixpoint useEach (i : nat) (extensions : list Extension.t) (k : Kites)
  : list Extension.t * list event * list job * list job :=
  match extensions with
  | [] => ([], [], [], [])
  | e :: rest =>
      let '(e', ev, p) := useOne i e k in
      let '(es, evs, chains, resolved) := useEach (S i) rest k in
      match p with
      | Some j => (e' :: es, ev ++ evs, j :: chains, resolved)
      | None => (e' :: es, ev ++ evs, chains, AllElement i Fulfilled :: resolved)
      end
  end.

(** The descriptor [useOne] leaves: the options replaced by the merge. *)
Definition merged (e : Extension.t) (k : Kites) : Extension.t :=
  (useOne 0 e k).1.1.

(** The parts of what the [useOne] calls leave: the events, the chains
    started, the promises resolved from the start. *)
Definition skip_events (i : nat) (l : list Extension.t) (k : Kites)
  : list event := (useEach i l k).1.1.2.

Definition chains (i : nat) (l : list Extension.t) (k : Kites) : list job :=
  (useEach i l k).1.2.

Definition resolved (i : nat) (l : list Extension.t) (k : Kites) : list job :=
  (useEach i l k).2.

Definition is_callable (en : entry) : bool :=
  match en with Callable _ => true | _ => false end.

(** A descriptor whose entry point gets called: not disabled once its
    options are merged, and with an entry point to call. *)
Definition activates (e : Extension.t) (k : Kites) : bool :=
  negb (disabled (merged e k)) && is_callable (entry_of (merged e k)).




(** The positions, from [i] on, of the descriptors of [l] that get
    activated. *)
Fixpoint activated (i : nat) (l : list Extension.t) (k : Kites) : list nat :=
  match l with
  | [] => []
  | e :: rest =>
      if activates e k then i :: activated (S i) rest k
      else activated (S i) rest k
  end.

(** The result of [useMany]. *)
Record activation : Type := {
  act_extensions : list Extension.t;   (* the descriptors, options merged *)
  act_trace : list event;
  act_result : option (settled rejection);
  act_added : list initializer;
  act_queue : list job;                (* jobs left in the queue *)
}.

(** The promise of [Promise.all(promises)] when it is created: one element
    to wait for per promise, and fulfilled at once when there is none. *)
Definition sched0 (l : list Extension.t) (k : Kites) : sched :=
  {| remaining := length l;
     all_result := match l with [] => Some Fulfilled | _ => None end;
     added := initializeListeners k |}.

(** [useMany(extensions)], followed by the jobs it has queued: the chains
    started by the [useOne] calls come first, then the reactions
    [Promise.all] attaches to the promises that are already resolved. *)
Definition useMany (extensions : list Extension.t) (k : Kites) : activation :=
  let '(es, ev, chains, resolved) := useEach 0 extensions k in
  let q := chains ++ resolved in
  let s0 := sched0 extensions k in
  let ev0 := match extensions with [] => [AllSettled Fulfilled] | _ => [] end in
  let '(evs, s, rest) := drain (total_weight q) q s0 in
  {| act_extensions := es;
     act_trace := ev ++ ev0 ++ evs;
     act_result := all_result s;
     act_added := added s;
     act_queue := rest |}.

(** [this.kites.options.discover] after the three tests at the start of
    [init]. The first test compares with the string ['undefined']. *)
Definition normalized_discover (o : gmap string jsval) : gmap string jsval :=
  match get o "discover" with
  | JStr s =>
      if String.eqb s "undefined"
      then <["discover" := JArr [JBool false; JNum 0]]> o
      else <["discover" := JArr [JBool true; JNum 2; JStr s]]> o
  | JBool b => <["discover" := JArr [JBool b; JNum 2; get o "appDirectory"]]> o
  | _ => o
  end.

(** [v.shift()]: the first element and the elements left in the array;
    [None] when [v] has no [shift] to call. *)
Definition shift (v : jsval) : option (jsval * list jsval) :=
  match v with
  | JArr (x :: rest) => Some (x, rest)
  | JArr [] => Some (JUndefined, [])
  | _ => None
  end.

(** [v === name] for an element of the allow-list *)
Definition name_is (name : option string) (v : jsval) : bool :=
  match v, name with
  | JStr s, Some x => String.eqb s x
  | JUndefined, None => true
  | _, _ => false
  end.

(** [allowedExtensions.indexOf(e.name) > -1] *)
Definition listed (allowedExtensions : list jsval) (e : Extension.t) : bool :=
  existsb (name_is (Extension.name e)) allowedExtensions.

(** [availableExtensions.filter(e => allowedExtensions.indexOf(e.name) > -1)]
    for a truthy [allowedExtensions]: an array is searched for the name, a
    string for the name as a substring, and any other value has no
    [indexOf], which raises at the first descriptor. *)
Definition keep_allowed (allowedExtensions : jsval)
  (candidates : list Extension.t) : result (list Extension.t) :=
  match allowedExtensions with
  | JArr names => Ok (List.filter (listed names) candidates)
  | JStr s =>
      Ok (List.filter (fun e => includes (render (Extension.name e)) s)
            candidates)
  | _ => match candidates with
         | [] => Ok []
         | _ => Raise TypeError
         end
  end.

(** [init()], from the concatenation with [usedExtensions] on. [o] is
    [kites.options] and [found] what discovery gave; [selected] is the
    concatenation, filtered when [options.extensions] is truthy. Descriptors
    are values here: the copies in [usedExtensions] keep the options they
    had. *)
Definition selected (o : gmap string jsval) (found : list Extension.t)
  (k : Kites) : result (list Extension.t) :=
  if truthy (get o "extensions")
  then keep_allowed (get o "extensions") (found ++ usedExtensions k)
  else Ok (found ++ usedExtensions k).

Definition init_from (o : gmap string jsval) (ev : list event)
  (found : list Extension.t) (k : Kites) : run :=
  let k1 := with_kites_options o k in
  match selected o found k with
  | Raise r =>
      {| trace := ev; promise := Some (Rejected r);
         state := with_available (found ++ usedExtensions k) k1 |}
  | Ok l =>
      let a := useMany (sort_extensions l) k1 in
      {| trace := ev ++ act_trace a;
         promise := act_result a;
         state := with_listeners (act_added a)
                    (with_available (act_extensions a) k1) |}
  end.

(** [init()], up to the concatenation: [kites.options] as the method leaves
    it, the message logged and the descriptors found; [None] when
    [options.discover] has no [shift] to call. *)
Definition discovery (k : Kites)
  : option (gmap string jsval * list event * list Extension.t) :=
  let o := normalized_discover (options k) in
  match shift (get o "discover") with
  | None => None
  | Some (autodiscover, rest) =>
      if truthy autodiscover then
        let '(depth_, directories) :=
          match rest with
          | d :: ds => (d, ds)
          | [] => (JUndefined, [])
          end in
        let extensions :=
          discover_extensions
            {| cacheAvailableExtensions := get o "cacheAvailableExtensions";
               extensionsLocationCache := get o "extensionsLocationCache";
               env := get o "env";
               depth := depth_;
               rootDirectory := directories;
               tempDirectory := get o "tempDirectory" |} in
        Some (<["discover" := JArr directories]> o,
              [Log Debug (Discovered (length extensions))], extensions)
      else
        Some (<["discover" := JArr rest]> o, [Log Debug AutodiscoverOff], [])
  end.

(** [init()] *)
Definition init (k : Kites) : run :=
  match discovery k with
  | None =>
      {| trace := []; promise := Some (Rejected TypeError);
         state := with_available []
                    (with_kites_options (normalized_discover (options k)) k) |}
  | Some (o, ev, found) => init_from o ev found k
  end.

(** [get extensions()]: the available descriptors that are not disabled;
    a descriptor without an options object counts as enabled. *)
Definition extensions (k : Kites) : list Extension.t :=
  List.filter
    (fun e => match Extension.options e with
              | None => true
              | Some o => negb (is_false (get o "enabled"))
              end)
    (availableExtensions k).

(** The value the first callback of the chain fails with, when it does:
    what the entry point throws, what loading the module raises, or the
    string the callback rejects with for want of an entry point. *)
Definition failure (e : Extension.t) : option thrown :=
  match entry_of e with
  | Callable f =>
      match fn_completion f with Throws t => Some t | Returns _ => None end
  | LoadFails t => Some t
  | Invalid =>
      Some (ThrownString ("Invalid kites extension: "
                          +:+ render (Extension.name e)))
  end.

(** The descriptor as a call of the entry point leaves it. *)
Definition after_entry (e : Extension.t) : Extension.t :=
  match entry_of e with
  | Callable f =>
      Extension.with_options
        (assign_props (fn_sets f) (default ∅ (Extension.options e))) e
  | _ => e
  end.

(** What [f3] and the settlement of the promise of [useOne] leave. *)
Definition catch_events (i : nat) (e : Extension.t) (o : settled thrown)
  : list event :=
  match o with
  | Fulfilled => [Settled i Fulfilled]
  | Rejected t =>
      match stack_of t with
      | Some st => [Log Error (Text (errorMsg e st))]
      | None => []
      end ++ [Settled i (Rejected (rethrown e t))]
  end.

(** What [f2] leaves, and then [f3]. *)
Definition second_events (i : nat) (e : Extension.t) (o : settled thrown)
  : list event :=
  match o with
  | Fulfilled =>
      if disabled e then [Log Debug (WasDisabled (Extension.name e))]
      else [Registered i]
  | Rejected _ => []
  end ++ catch_events i e o.

(** Everything the chain of [useOne] leaves from a job on, the work of the
    entry point and the reaction of [Promise.all] apart. *)
Definition chain_events (j : job) : list event :=
  match j with
  | FirstThen i e =>
      (if is_callable (entry_of e) then [Invoke i] else [])
      ++ second_events i (after_entry e)
           (match failure e with Some t => Rejected t | None => Fulfilled end)
  | ResolveThenable i e o | Adopt i e o | SecondThen i e o =>
      second_events i e o
  | Catch i e o => catch_events i e o
  | AllElement _ _ | Work _ _ _ => []
  end.

End WithHost.

End ExtensionsManager.

(** The argument of [KitesInstance.discover]. *)
Inductive discover_arg : Type :=
| DiscoverString (s : string)
| DiscoverBoolean (b : bool)
| DiscoverOther.

(** [array[t] = value] on the elements of an array, for an index [i]:
    in range the element is replaced, past the end the array grows. *)
Definition array_put (i : nat) (v : jsval) (l : list jsval) : list jsval :=
  if decide (i < length l)%nat then <[i := v]> l
  else l ++ replicate (i - length l) JUndefined ++ [v].

(** The canonical array index a property name denotes, if any. *)
Fixpoint digits (s : string) (acc : nat) : option nat :=
  match s with
  | EmptyString => Some acc
  | String c r =>
      let n := nat_of_ascii c in
      if (48 <=? n)%nat && (n <=? 57)%nat
      then digits r (10 * acc + (n - 48))
      else None
  end.

Definition array_index (s : string) : option nat :=
  match s with
  | EmptyString => None
  | String "0" EmptyString => Some 0%nat
  | String "0" _ => None
  | _ => digits s 0
  end.

(** [target[key] = value] in strict mode. Assigning to a property of
    [undefined], [null] or a primitive raises a [TypeError]. On an array
    only the elements are kept: a property that is not an index is not
    stored. *)
Definition put_prop (target : jsval) (key : string) (value : jsval)
  : result jsval :=
  match target with
  | JObj o => Ok (JObj (<[key := value]> o))
  | JArr l =>
      match array_index key with
      | Some i => Ok (JArr (array_put i value l))
      | None => Ok (JArr l)
      end
  | _ => Raise TypeError
  end.

Module KitesInstance.

Section WithHost.
Context `{Host}.

(** [get defaults()] *)
Definition defaults : gmap string jsval :=
  {[ "appDirectory" := JStr appRoot;
     "discover" := JBool false;
     "env" := JStr (match NODE_ENV with
                    | Some e => if String.eqb e "" then "development" else e
                    | None => "development"
                    end);
     "logger" := JObj {[ "console" :=
                   JObj {[ "level" := JStr "debug";
                           "transport" := JStr "console" ]} ]};
     "parentModuleDirectory" := JStr parent_dirname;
     "rootDirectory" := JStr engine_root ]}.

(** [new KitesInstance(options)]: [Object.assign(this.defaults, options)] *)
Definition new (opts : gmap string jsval) : Kites :=
  {| options := opts ∪ defaults;
     usedExtensions := [];
     availableExtensions := [];
     initializeListeners := [];
     fnAfterConfigLoaded := [];
     readyCallbacks := [];
     initialized := false;
     loggerSilent := false |}.

(** [get configFileName()] *)
Definition configFileName (k : Kites) : string :=
  match get (options k) "env" with
  | JStr e =>
      if String.eqb e "production" then "prod.config.json"
      else if String.eqb e "test" then "test.config.json"
      else "dev.config.json"
  | _ => "dev.config.json"
  end.

(** [get defaultConfigFile()] *)
Definition defaultConfigFile : string := "kites.config.json".

(** [get appDirectory()] *)
Definition appDirectory (k : Kites) : jsval :=
  let v := get (options k) "appDirectory" in
  if truthy v then v else JStr appRoot.

(** [get isInitialized()] *)
Definition isInitialized (k : Kites) : bool := initialized k.

(** [defaultOption(option, defaultValue)] *)
Definition defaultOption (option : string) (defaultValue : jsval) (k : Kites)
  : jsval :=
  let v := get (options k) option in
  if truthy v then v else defaultValue.

(** [ready(callback)] *)
Definition ready (callback : string) (k : Kites) : Kites :=
  with_ready (readyCallbacks k ++ [callback]) k.

(** [use(extension)] *)
Definition use (extension : use_arg) (k : Kites) : Kites :=
  ExtensionsManager.use extension k.

(** [discover(option)] *)
Definition discover (option : discover_arg) (k : Kites) : Kites :=
  match option with
  | DiscoverString s =>
      with_kites_options
        (<["rootDirectory" := JStr s]> (<["discover" := JBool true]> (options k)))
        k
  | DiscoverBoolean b =>
      with_kites_options (<["discover" := JBool b]> (options k)) k
  | DiscoverOther =>
      with_kites_options (<["discover" := JBool true]> (options k)) k
  end.

(** [set(option, value)] *)
Definition set (option : string) (value : string) (k : Kites) : result Kites :=
  match split ":" option with
  | [t0; t1] =>
      match put_prop (get (options k) t0) t1 (JStr value) with
      | Ok target => Ok (with_kites_options (<[t0 := target]> (options k)) k)
      | Raise r => Raise r
      end
  | [t0] => Ok (with_kites_options (<[t0 := JStr value]> (options k)) k)
  | _ => Ok k
  end.

(** [afterConfigLoaded(fn)] *)
Definition afterConfigLoaded (fn : list (string * jsval)) (k : Kites) : Kites :=
  with_after_config fn k.

(** [configFilePath] in [_loadConfig()], for a configuration file named in
    the options. [path.join] raises a [TypeError] on an argument that is not
    a string. *)
Definition configFilePath (file : string) (k : Kites) : result string :=
  if path_isAbsolute file then Ok file
  else match appDirectory k with
       | JStr dir => Ok (path_join dir file)
       | _ => Raise TypeError
       end.

(** [_loadConfig()]: the instance it leaves and, when it throws, what it
    throws. [path.isAbsolute] raises a [TypeError] on an argument that is
    not a string. *)
Definition _loadConfig (k : Kites) : Kites * option rejection :=
  let configFile := get (options k) "configFile" in
  if negb (truthy configFile) then
    let k1 :=
      with_kites_options
        (<["configFile" := JStr (configFileName k)]> (options k)) k in
    match appDirectory k1 with
    | JStr dir =>
        if fs_existsSync (path_join dir (configFileName k)) then
          (with_kites_options
             (nconf_get (options k1) (Some (path_join dir (configFileName k))))
             k1, None)
        else if fs_existsSync (path_join dir defaultConfigFile) then
          let k2 :=
            with_kites_options
              (<["configFile" := JStr defaultConfigFile]> (options k1)) k1 in
          (with_kites_options
             (nconf_get (options k2) (Some (path_join dir defaultConfigFile)))
             k2, None)
        else (with_kites_options (nconf_get (options k1) None) k1, None)
    | _ => (k1, Some TypeError)
    end
  else
    match configFile with
    | JStr file =>
        match configFilePath file k with
        | Raise r => (k, Some r)
        | Ok path =>
            if negb (fs_existsSync path) then
              (k, Some (NewError ("Config file " +:+ file
                                  +:+ " was not found.")))
            else
              (with_kites_options (nconf_get (options k) (Some path)) k, None)
        end
    | _ => (k, Some TypeError)
    end.

(** [_initOptions()] *)
Definition _initOptions (k : Kites) : list event * Kites * option rejection :=
  if truthy (get (options k) "loadConfig") then
    match _loadConfig k with
    | (k1, Some r) => ([], k1, Some r)
    | (k1, None) =>
        ([AfterConfigLoaded],
         with_kites_options
           (assign_props (fnAfterConfigLoaded k1) (options k1)) k1,
         None)
    end
  else ([], k, None).

(** [_silentLogs(logger)] *)
Definition _silentLogs (k : Kites) : Kites := with_silent true k.

(** Modelled from the spec: [EventCollectionEmitter.fire] of
    [./event-collection], which is not among the sources at hand. The spec
    has the runtime fire the deferred initializers "strictly in registration
    order", "awaiting each": an initializer that fails ends the firing with
    its failure. *)
Fixpoint fire (listeners : list initializer)
  : list event * settled rejection :=
  match listeners with
  | [] => ([], Fulfilled)
  | l :: rest =>
      match li_result l with
      | Fulfilled =>
          let '(ev, o) := fire rest in (Fired (li_label l) :: ev, o)
      | Rejected t => ([Fired (li_label l)], Rejected (ByExtension t))
      end
  end.

(** The reactions of [isReady], which run once the current job is over. *)
Definition run_ready (k : Kites) : list event :=
  (fun label => ReadyCallback label (isInitialized k)) <$> readyCallbacks k.

(** [init()]. The two [await]s take the promise of the extensions manager
    and that of the firing; work the entry points have started and that is
    still going on when the manager's promise settles is not followed
    (cf. [ExtensionsManager.drain]). *)
Definition init (k : Kites) : run :=
  match _initOptions k with
  | (ev0, k0, Some r) =>
      {| trace := ev0;
         promise := Some (Rejected r);
         state := k0 |}
  | (ev0, k0, None) =>
      let ev1 :=
        [Log Info
           (Initializing (get (options k0) "env")
              (if truthy (get (options k0) "loadConfig")
               then Some (get (options k0) "configFile") else None))] in
      let k1 :=
        if truthy (get (options k0) "logger")
           && is_true (prop (get (options k0) "logger") "silent")
        then _silentLogs k0 else k0 in
      let m := ExtensionsManager.init k1 in
      match promise m with
      | Some Fulfilled =>
          let k2 := state m in
          match fire (initializeListeners k2) with
          | (ev2, Fulfilled) =>
              let ev3 := [Log Info KitesInitialized;
                          EmitInitialized (isInitialized k2)] in
              let k3 := with_initialized true k2 in
              {| trace :=
                   ev0 ++ ev1 ++ trace m ++ ev2 ++ ev3
                   ++ run_ready k3;
                 promise := Some Fulfilled;
                 state := k3 |}
          | (ev2, Rejected r) =>
              {| trace :=
                   ev0 ++ ev1 ++ trace m ++ ev2;
                 promise := Some (Rejected r);
                 state := k2 |}
          end
      | p =>
          {| trace := ev0 ++ ev1 ++ trace m;
             promise := p;
             state := state m |}
      end
  end.

End WithHost.

End KitesInstance.

(** ** The logger ([createLogger]) *)

Module Logger.

(** A transport of a winston logger. *)
Inductive transport : Type :=
| DebugTransport (options : jsval) (name : string)
    (* [new DebugTransport(options, name)] *)
| OtherTransport (label : string).
    (* a transport added elsewhere, to a file for instance *)

(** A winston logger, by what [createLogger] touches: its transports and
    the listeners of its ['error'] event, counted. *)
Record logger : Type := {
  transports : list transport;
  error_listeners : nat;
}.

(** [createLogger(name, options)], on the container [winston.loggers]: the
    container it leaves; what it returns is the logger found there under
    [name]. A logger that is not in the container is added with the debug
    transport for its only transport, and gets the listener of ['error'];
    a logger that is there has its transports cleared and the debug
    transport added. *)
Definition createLogger (name : string) (options : jsval)
  (loggers : gmap string logger) : gmap string logger :=
  match loggers !! name with
  | None =>
      <[name := {| transports := [DebugTransport options name];
                   error_listeners := 1 |}]> loggers
  | Some l =>
      <[name := {| transports := [] ++ [DebugTransport options name];
                   error_listeners := error_listeners l |}]> loggers
  end.

End Logger.

(** What the steps of [KitesInstance.init] before the emission leave as it
    was: the flag and the callbacks waiting for readiness. *)
Definition same_readiness (k k' : Kites) : Prop :=
  initialized k' = initialized k /\ readyCallbacks k' = readyCallbacks k.

(** ** A host for the examples *)

(** A stable insertion sort by the number of declared dependencies. *)
Fixpoint insert_by_dependencies (e : Extension.t) (l : list Extension.t)
  : list Extension.t :=
  match l with
  | [] => [e]
  | x :: rest =>
      if (length (Extension.dependencies e)
          <=? length (Extension.dependencies x))%nat
      then e :: l
      else x :: insert_by_dependencies e rest
  end.

Definition sort_by_dependencies (l : list Extension.t) : list Extension.t :=
  foldr insert_by_dependencies [] l.

Definition LF : string := String (ascii_of_nat 10) EmptyString.

(** A function that does nothing but complete as given. *)
Definition simple_function (name : string) (c : completion) : jsfunction :=
  {| fn_name := name; fn_sets := []; fn_initializers := [];
     fn_completion := c |}.

(** A descriptor with a function for [main]. *)
Definition simple_extension (name : string) (deps : list string)
  (opts : option (gmap string jsval)) (c : completion) : Extension.t :=
  {| Extension.name := Some name;
     Extension.dependencies := deps;
     Extension.directory := None;
     Extension.main := MainFunction (simple_function name c);
     Extension.init := None;
     Extension.options := opts |}.

(** * Properties *)

(** ** Strings and values *)

Lemma contains_app_middle (a needle b : string) :
  contains needle (a +:+ needle +:+ b).
Proof. by exists a, b. Qed.

Lemma toLowerCase_empty : toLowerCase "" = "".
Proof. reflexivity. Qed.


(** Every split has at least one token. *)
Lemma split_nonempty (sep : ascii) (s : string) : split sep s <> [].
Proof.
  induction s as [|c r IH]; simpl; [done|].
  destruct (Ascii.eqb c sep); [done|].
  by destruct (split sep r).
Qed.


Lemma get_insert_eq (o : gmap string jsval) (k : string) (v : jsval) :
  get (<[k := v]> o) k = v.
Proof. unfold get. by rewrite lookup_insert_eq. Qed.

Lemma get_insert_ne (o : gmap string jsval) (k k' : string) (v : jsval) :
  k <> k' -> get (<[k := v]> o) k' = get o k'.
Proof. intros Hne. unfold get. by rewrite lookup_insert_ne. Qed.

Lemma sort_by_dependencies_perm (l : list Extension.t) :
  sort_by_dependencies l ≡ₚ l.
Proof.
  assert (Hins : forall e l', insert_by_dependencies e l' ≡ₚ e :: l').
  { intros e l'. induction l' as [|x rest IH]; simpl; [done|].
    case_match; [done|]. rewrite IH. apply Permutation_swap. }
  induction l as [|e rest IH]; simpl; [done|].
  by rewrite Hins, IH.
Qed.

(** POSIX line ends, an empty disk, nothing to discover, no loadable
    module, configuration sources that add nothing. *)
#[local] Instance example_host : Host := {|
  os_EOL := LF;
  appRoot := "/app";
  NODE_ENV := None;
  parent_dirname := "/app/src";
  engine_root := "/app/node_modules";
  path_isAbsolute := String.prefix "/";
  path_join := fun a b => a +:+ "/" +:+ b;
  fs_existsSync := fun _ => false;
  require := fun p => inl (ThrownError ("Cannot find module " +:+ p) "");
  nconf_get := fun o _ => o;
  discover_extensions := fun _ => [];
  sort_extensions := sort_by_dependencies;
  sort_extensions_perm := sort_by_dependencies_perm;
|}.

(** The extensions of the examples: [logging], whose entry point returns
    the promise of work that takes one more job; [router], which depends on
    it; [broken], whose entry point throws; [metrics], disabled by its own
    options; [flaky], whose entry point returns a promise that is rejected
    later. *)
Definition logging : Extension.t :=
  simple_extension "logging" [] None (Returns (Async 0 Fulfilled)).

Definition flaky : Extension.t :=
  simple_extension "flaky" [] None
    (Returns (Async 2 (Rejected (ThrownError "late" "Error: late")))).

Definition router : Extension.t :=
  simple_extension "router" ["logging"] None (Returns Plain).

Definition broken : Extension.t :=
  simple_extension "broken" [] None (Throws (ThrownError "boom" "Error: boom")).

Definition metrics : Extension.t :=
  simple_extension "metrics" [] (Some {[ "enabled" := JBool false ]})
    (Returns Plain).

(** [engine(opts).use(e1).use(e2)...] *)
Definition engine (opts : gmap string jsval) (used : list Extension.t)
  : Kites :=
  foldl (fun k e => KitesInstance.use (UseDescriptor e) k)
    (KitesInstance.new opts) used.

(** ** Options of the runtime instance *)



(** A truthy stored value is what [defaultOption] gives. *)
Lemma defaultOption_truthy (k : Kites) (option : string) (d : jsval) :
  truthy (get (options k) option) = true ->
  KitesInstance.defaultOption option d k = get (options k) option.
Proof. intros Hv. unfold KitesInstance.defaultOption. by rewrite Hv. Qed.

(** C9. When the option name splits at its colons into a number of tokens
    that is neither one nor two, [set] changes nothing. *)
Theorem set_ignores_other_token_counts (k : Kites) (option value : string) :
  length (split ":" option) <> 1%nat ->
  length (split ":" option) <> 2%nat ->
  KitesInstance.set option value k = Ok k.
Proof.
  intros H1 H2. unfold KitesInstance.set.
  destruct (split ":" option) as [|t0 [|t1 [|t2 ts]]]; simpl in *;
    congruence.
Qed.

Lemma set_ignores_other_token_counts_witness :
  KitesInstance.set "a:b:c" "x" (KitesInstance.new ∅)
  = Ok (KitesInstance.new ∅).
Proof.
  apply set_ignores_other_token_counts; vm_compute; discriminate.
Defined.

Example set_three_empty_segments (k : Kites) :
  KitesInstance.set "::" "x" k = Ok k.
Proof. reflexivity. Qed.

Example set_one_token (k : Kites) :
  KitesInstance.set "env" "test" k
  = Ok (with_kites_options (<["env" := JStr "test"]> (options k)) k).
Proof. reflexivity. Qed.

Example set_two_tokens :
  KitesInstance.set "logger:silent" "yes" (KitesInstance.new ∅)
  = Ok (with_kites_options
          (<["logger" :=
               JObj (<["silent" := JStr "yes"]>
                       {[ "console" :=
                            JObj {[ "level" := JStr "debug";
                                    "transport" := JStr "console" ]} ]})]>
             (options (KitesInstance.new ∅)))
          (KitesInstance.new ∅)).
Proof. reflexivity. Qed.

Example set_two_tokens_no_namespace :
  KitesInstance.set "express:static" "./assets" (KitesInstance.new ∅)
  = Raise TypeError.
Proof. reflexivity. Qed.

(** ** Registration *)


(** A descriptor given to [use] is appended as it is. *)
Lemma use_descriptor (k : Kites) (e : Extension.t) :
  KitesInstance.use (UseDescriptor e) k = with_used (usedExtensions k ++ [e]) k.
Proof. reflexivity. Qed.

(** On an instance built without a [parentModuleDirectory] option the
    directory is the one of the parent module. *)
Example use_directory_default `{Host} (f : jsfunction) :
  Extension.directory
    <$> last (usedExtensions (KitesInstance.use (UseFunction f)
                               (KitesInstance.new ∅)))
  = Some (Some parent_dirname).
Proof. reflexivity. Qed.

Section Activation.
Context `{Host}.
Import ExtensionsManager.

(** ** The options merge of [useOne] *)

Lemma useOne_descriptor (i : nat) (e : Extension.t) (k : Kites) :
  (useOne i e k).1.1
  = Extension.with_options
      (assign (Extension.options e)
         (get (options k) (namespace_key (Extension.name e)))) e.
Proof. unfold useOne. by case_match. Qed.

Lemma useOne_job (i : nat) (e : Extension.t) (k : Kites) :
  (useOne i e k).2
  = if disabled (useOne i e k).1.1 then None
    else Some (FirstThen i (useOne i e k).1.1).
Proof.
  rewrite useOne_descriptor. unfold useOne, disabled. simpl.
  by case_match.
Qed.


End Activation.


(** ** The job queue *)

Section Jobs.
Context `{Host}.
Import ExtensionsManager.

Lemma run_job_next (j : job) (s : sched) : (run_job j s).2 = next j.
Proof.
  unfold next.
  destruct j as [i e|i e o|i e o|i e [|t]|i e [|t]|i [|r]|i [|n] w]; simpl;
    try reflexivity.
  - destruct (entry_of e) as [f|t|]; [destruct (fn_completion f) as [[| |]|]|..];
      reflexivity.
  - destruct (all_result s); [reflexivity|]. by case_match.
  - destruct (all_result s); reflexivity.
Qed.

(** Every job leads to fewer jobs than its weight. *)
Lemma weight_next (j : job) : (total_weight (next j) < weight j)%nat.
Proof.
  unfold next, total_weight.
  destruct j as [i e|i e o|i e o|i e [|t]|i e [|t]|i [|r]|i [|n] w]; simpl;
    try lia.
  destruct (entry_of e) as [f|t|]; [destruct (fn_completion f) as [[| |]|]|..];
    simpl; lia.
Qed.

Lemma next_eq (j : job) :
  next j
  = match j with
    | FirstThen i e =>
        match entry_of e with
        | Callable f =>
            match fn_completion f with
            | Throws t =>
                [SecondThen i
                   (Extension.with_options
                      (assign_props (fn_sets f)
                         (default ∅ (Extension.options e))) e)
                   (Rejected t)]
            | Returns (Async hops o) =>
                [Work i hops o;
                 ResolveThenable i
                   (Extension.with_options
                      (assign_props (fn_sets f)
                         (default ∅ (Extension.options e))) e)
                   Fulfilled]
            | Returns _ =>
                [ResolveThenable i
                   (Extension.with_options
                      (assign_props (fn_sets f)
                         (default ∅ (Extension.options e))) e)
                   Fulfilled]
            end
        | LoadFails t => [SecondThen i e (Rejected t)]
        | Invalid =>
            [ResolveThenable i e
               (Rejected (ThrownString ("Invalid kites extension: "
                                        +:+ render (Extension.name e))))]
        end
    | ResolveThenable i e o => [Adopt i e o]
    | Adopt i e o => [SecondThen i e o]
    | SecondThen i e o => [Catch i e o]
    | Catch i e Fulfilled => [AllElement i Fulfilled]
    | Catch i e (Rejected t) => [AllElement i (Rejected (rethrown e t))]
    | AllElement _ _ => []
    | Work i (S hops) o => [Work i hops o]
    | Work i 0 o => []
    end.
Proof.
  unfold next.
  destruct j as [i e|i e o|i e o|i e [|t]|i e [|t]|i [|r]|i [|n] w]; simpl;
    try reflexivity.
  destruct (entry_of e) as [f|t|]; [destruct (fn_completion f) as [[| |]|]|..];
    reflexivity.
Qed.

Lemma total_weight_app (q1 q2 : list job) :
  total_weight (q1 ++ q2) = (total_weight q1 + total_weight q2)%nat.
Proof. apply sum_list_with_app. Qed.

Lemma total_weight_cons (j : job) (q : list job) :
  total_weight (j :: q) = (weight j + total_weight q)%nat.
Proof. reflexivity. Qed.

Lemma weight_pos (j : job) : (1 <= weight j)%nat.
Proof.
  destruct j as [i e| | | | | |]; simpl; try lia.
  destruct (entry_of e) as [f|t|]; [destruct (fn_completion f) as [[| |]|]|..];
    lia.
Qed.

Lemma length_le_total_weight (q : list job) : (length q <= total_weight q)%nat.
Proof.
  induction q as [|j q IH]; [simpl; lia|].
  rewrite total_weight_cons. pose proof (weight_pos j). simpl. lia.
Qed.

Lemma chain_jobs_app (q1 q2 : list job) :
  chain_jobs (q1 ++ q2) = (chain_jobs q1 + chain_jobs q2)%nat.
Proof. apply sum_list_with_app. Qed.

Lemma chain_jobs_cons (j : job) (q : list job) :
  chain_jobs (j :: q) = ((if is_work j then 0 else 1) + chain_jobs q)%nat.
Proof. reflexivity. Qed.

Lemma chain_jobs_length (q : list job) :
  Forall (fun j => is_work j = false) q -> chain_jobs q = length q.
Proof.
  induction 1 as [|j q Hj _ IH]; [done|].
  rewrite chain_jobs_cons, Hj, IH. done.
Qed.

Lemma only_work_chain_jobs (q : list job) :
  forallb is_work q = true <-> chain_jobs q = 0%nat.
Proof.
  induction q as [|j q IH]; [done|].
  rewrite chain_jobs_cons. simpl. destruct (is_work j); simpl; [done|].
  split; [done|lia].
Qed.






(** *** The queue of the manager *)

Lemma drain_stop (fuel : nat) (q : list job) (s : sched) :
  forallb is_work q = true -> drain fuel q s = ([], s, q).
Proof.
  intros Hq. destruct fuel as [|fuel]; [by destruct q|].
  destruct q as [|j q]; [done|]. unfold drain. by rewrite Hq.
Qed.

Lemma drain_step (fuel : nat) (j : job) (q : list job) (s : sched) :
  forallb is_work (j :: q) = false ->
  drain (S fuel) (j :: q) s
  = ((run_job j s).1.1 ++ (drain fuel (q ++ next j) (run_job j s).1.2).1.1,
     (drain fuel (q ++ next j) (run_job j s).1.2).1.2,
     (drain fuel (q ++ next j) (run_job j s).1.2).2).
Proof.
  intros Hq. cbn [drain]. rewrite Hq, <- (run_job_next j s).
  destruct (run_job j s) as [[ev s'] js]. simpl.
  by destruct (drain fuel (q ++ js) s') as [[evs s''] rest].
Qed.

(** With fuel for the weight of the queue, the queue is run until only
    work of the entry points is left in it. *)
Lemma drain_runs_out (fuel : nat) (q : list job) (s : sched) :
  (total_weight q <= fuel)%nat -> forallb is_work (drain fuel q s).2 = true.
Proof.
  revert q s. induction fuel as [|fuel IH]; intros q s Hw.
  - destruct q as [|j q]; [reflexivity|].
    rewrite total_weight_cons in Hw. pose proof (weight_pos j). lia.
  - destruct (forallb is_work q) eqn:Hq; [by rewrite drain_stop|].
    destruct q as [|j q]; [done|].
    rewrite (drain_step _ _ _ _ Hq). simpl. apply IH.
    rewrite total_weight_cons in Hw. rewrite total_weight_app.
    pose proof (weight_next j). lia.
Qed.

(** Jobs of the manager at the head of the queue run first; what they
    enqueue comes after the rest of the queue. *)
Lemma drain_app_chain (fuel : nat) (q1 q2 : list job) (s : sched) :
  Forall (fun j => is_work j = false) q1 ->
  drain (length q1 + fuel) (q1 ++ q2) s
  = ((run_all q1 s).1
       ++ (drain fuel (q2 ++ (q1 ≫= next)) (run_all q1 s).2).1.1,
     (drain fuel (q2 ++ (q1 ≫= next)) (run_all q1 s).2).1.2,
     (drain fuel (q2 ++ (q1 ≫= next)) (run_all q1 s).2).2).
Proof.
  intros Hq1. revert q2 s.
  induction Hq1 as [|j q1 Hj _ IH]; intros q2 s.
  - simpl. rewrite app_nil_r.
    by destruct (drain fuel q2 s) as [[evs s'] rest].
  - change (length (j :: q1) + fuel)%nat with (S (length q1 + fuel)).
    change ((j :: q1) ++ q2) with (j :: (q1 ++ q2)).
    rewrite drain_step by (simpl; by rewrite Hj).
    rewrite <- app_assoc, IH.
    simpl. rewrite <- (run_job_next j s).
    destruct (run_job j s) as [[ev s'] js]. simpl.
    destruct (run_all q1 s') as [evs s'']. simpl.
    rewrite <- !app_assoc. reflexivity.
Qed.

(** *** The synchronous part of [useMany] *)

Lemma useOne_index (i j : nat) (e : Extension.t) (k : Kites) :
  (useOne i e k).1.1 = (useOne j e k).1.1.
Proof. by rewrite !useOne_descriptor. Qed.

Lemma useOne_merged (i : nat) (e : Extension.t) (k : Kites) :
  (useOne i e k).1.1 = merged e k.
Proof. apply useOne_index. Qed.

Lemma useOne_cases (i : nat) (e : Extension.t) (k : Kites) :
  useOne i e k
  = if disabled (merged e k)
    then (merged e k,
          [Log Debug (DisabledSkipping (Extension.name e));
           Settled i Fulfilled], None)
    else (merged e k, [], Some (FirstThen i (merged e k))).
Proof.
  unfold merged, disabled. rewrite (useOne_descriptor 0). unfold useOne.
  cbn [Extension.options Extension.with_options default from_option].
  destruct (is_false _); reflexivity.
Qed.

Lemma useEach_cons (i : nat) (e : Extension.t) (l : list Extension.t)
  (k : Kites) :
  useEach i (e :: l) k
  = if disabled (merged e k)
    then (merged e k :: (useEach (S i) l k).1.1.1,
          [Log Debug (DisabledSkipping (Extension.name e));
           Settled i Fulfilled] ++ skip_events (S i) l k,
          chains (S i) l k,
          AllElement i Fulfilled :: resolved (S i) l k)
    else (merged e k :: (useEach (S i) l k).1.1.1,
          skip_events (S i) l k,
          FirstThen i (merged e k) :: chains (S i) l k,
          resolved (S i) l k).
Proof.
  unfold skip_events, chains, resolved. cbn [useEach].
  rewrite useOne_cases.
  destruct (useEach (S i) l k) as [[[es evs] cs] rs].
  by destruct (disabled (merged e k)).
Qed.

Lemma useEach_extensions (i : nat) (l : list Extension.t) (k : Kites) :
  (useEach i l k).1.1.1 = (fun e => merged e k) <$> l.
Proof.
  revert i. induction l as [|e l IH]; intros i; [reflexivity|].
  rewrite useEach_cons. rewrite fmap_cons, <- (IH (S i)).
  by destruct (disabled (merged e k)).
Qed.

Lemma skip_events_cons (i : nat) (e : Extension.t) (l : list Extension.t)
  (k : Kites) :
  skip_events i (e :: l) k
  = (if disabled (merged e k)
     then [Log Debug (DisabledSkipping (Extension.name e)); Settled i Fulfilled]
     else []) ++ skip_events (S i) l k.
Proof.
  unfold skip_events at 1. rewrite useEach_cons.
  by destruct (disabled (merged e k)).
Qed.

Lemma chains_cons (i : nat) (e : Extension.t) (l : list Extension.t)
  (k : Kites) :
  chains i (e :: l) k
  = (if disabled (merged e k) then [] else [FirstThen i (merged e k)])
    ++ chains (S i) l k.
Proof.
  unfold chains at 1. rewrite useEach_cons.
  by destruct (disabled (merged e k)).
Qed.

Lemma resolved_cons (i : nat) (e : Extension.t) (l : list Extension.t)
  (k : Kites) :
  resolved i (e :: l) k
  = (if disabled (merged e k) then [AllElement i Fulfilled] else [])
    ++ resolved (S i) l k.
Proof.
  unfold resolved at 1. rewrite useEach_cons.
  by destruct (disabled (merged e k)).
Qed.


Lemma resolved_app (i : nat) (l1 l2 : list Extension.t) (k : Kites) :
  resolved i (l1 ++ l2) k = resolved i l1 k ++ resolved (i + length l1) l2 k.
Proof.
  revert i. induction l1 as [|e l1 IH]; intros i.
  - simpl. by rewrite Nat.add_0_r.
  - rewrite <- app_comm_cons, !resolved_cons, IH, <- app_assoc.
    simpl length. by rewrite Nat.add_succ_r.
Qed.

(** One promise per descriptor: a chain or a resolved promise. *)
Lemma chains_resolved_length (i : nat) (l : list Extension.t) (k : Kites) :
  (length (chains i l k) + length (resolved i l k) = length l)%nat.
Proof.
  revert i. induction l as [|e l IH]; intros i; [reflexivity|].
  rewrite chains_cons, resolved_cons, !length_app. specialize (IH (S i)).
  destruct (disabled (merged e k)); simpl; lia.
Qed.

(** The chains are those of the descriptors that are not disabled, each
    with its position. *)
Lemma chains_spec (i : nat) (l : list Extension.t) (k : Kites) (j : job) :
  j ∈ chains i l k ->
  exists n e, l !! n = Some e /\ disabled (merged e k) = false
              /\ j = FirstThen (i + n) (merged e k).
Proof.
  revert i. induction l as [|e l IH]; intros i Hj.
  - by apply elem_of_nil in Hj.
  - rewrite chains_cons in Hj. apply elem_of_app in Hj as [Hj|Hj].
    + destruct (disabled (merged e k)) eqn:Hd;
        [by apply elem_of_nil in Hj|].
      apply list_elem_of_singleton in Hj as ->.
      exists 0%nat, e. by rewrite Nat.add_0_r.
    + destruct (IH _ Hj) as (n & e' & Hn & Hd & ->).
      exists (S n), e'. by rewrite Nat.add_succ_r.
Qed.

Lemma resolved_spec (i : nat) (l : list Extension.t) (k : Kites) (j : job) :
  j ∈ resolved i l k ->
  exists n e, l !! n = Some e /\ disabled (merged e k) = true
              /\ j = AllElement (i + n) Fulfilled.
Proof.
  revert i. induction l as [|e l IH]; intros i Hj.
  - by apply elem_of_nil in Hj.
  - rewrite resolved_cons in Hj. apply elem_of_app in Hj as [Hj|Hj].
    + destruct (disabled (merged e k)) eqn:Hd;
        [|by apply elem_of_nil in Hj].
      apply list_elem_of_singleton in Hj as ->.
      exists 0%nat, e. by rewrite Nat.add_0_r.
    + destruct (IH _ Hj) as (n & e' & Hn & Hd & ->).
      exists (S n), e'. by rewrite Nat.add_succ_r.
Qed.

(** The events of the synchronous part: for each disabled descriptor, the
    message of the skip and the settlement of a promise that is resolved
    from the start. *)
Lemma skip_events_spec (i : nat) (l : list Extension.t) (k : Kites)
  (ev : event) :
  ev ∈ skip_events i l k ->
  exists n e, l !! n = Some e /\ disabled (merged e k) = true
              /\ (ev = Log Debug (DisabledSkipping (Extension.name e))
                  \/ ev = Settled (i + n) Fulfilled).
Proof.
  revert i. induction l as [|e l IH]; intros i Hev.
  - by apply elem_of_nil in Hev.
  - rewrite skip_events_cons in Hev. apply elem_of_app in Hev as [Hev|Hev].
    + destruct (disabled (merged e k)) eqn:Hd;
        [|by apply elem_of_nil in Hev].
      exists 0%nat, e. rewrite Nat.add_0_r.
      apply elem_of_cons in Hev as [->|Hev]; [by auto|].
      apply list_elem_of_singleton in Hev as ->. by auto.
    + destruct (IH _ Hev) as (n & e' & Hn & Hd & Hcases).
      exists (S n), e'. by rewrite Nat.add_succ_r.
Qed.

Lemma skip_events_disabled (i : nat) (l : list Extension.t) (k : Kites)
  (n : nat) (e : Extension.t) :
  l !! n = Some e -> disabled (merged e k) = true ->
  Log Debug (DisabledSkipping (Extension.name e)) ∈ skip_events i l k
  /\ Settled (i + n) Fulfilled ∈ skip_events i l k.
Proof.
  revert i n. induction l as [|x l IH]; intros i n Hn Hd; [done|].
  rewrite skip_events_cons. destruct n as [|n]; simpl in Hn.
  - injection Hn as ->. rewrite Hd, Nat.add_0_r.
    split; apply elem_of_app; left; [left|right; left].
  - destruct (IH (S i) n Hn Hd) as [H1 H2].
    rewrite Nat.add_succ_r. split; apply elem_of_app; right; done.
Qed.

(** *** What the jobs leave in the trace *)

Lemma run_all_events (P : event -> Prop) (Q : job -> Prop) :
  (forall j s, Q j -> Forall P (run_job j s).1.1) ->
  forall q s, Forall Q q -> Forall P (run_all q s).1.
Proof.
  intros Hrun q. induction q as [|j q IH]; intros s Hq; [by constructor|].
  apply Forall_cons in Hq as [Hj Hq]. simpl.
  pose proof (Hrun j s Hj) as Hev.
  destruct (run_job j s) as [[ev s'] js]. specialize (IH s' Hq).
  destruct (run_all q s') as [evs s'']. simpl in *.
  by apply Forall_app.
Qed.

Lemma drain_events (P : event -> Prop) (Q : job -> Prop) :
  (forall j s, Q j -> Forall P (run_job j s).1.1) ->
  (forall j, Q j -> Forall Q (next j)) ->
  forall fuel q s, Forall Q q -> Forall P (drain fuel q s).1.1.
Proof.
  intros Hrun Hnext fuel.
  induction fuel as [|fuel IH]; intros q s Hq.
  - destruct q; by constructor.
  - destruct (forallb is_work q) eqn:Hwork;
      [rewrite drain_stop by done; by constructor|].
    destruct q as [|j q]; [by constructor|].
    apply Forall_cons in Hq as [Hj Hq].
    rewrite (drain_step _ _ _ _ Hwork). simpl.
    apply Forall_app. split; [by apply Hrun|].
    apply IH, Forall_app. split; [done|]. by apply Hnext.
Qed.

Lemma invoked_app (t1 t2 : list event) :
  invoked (t1 ++ t2) = invoked t1 ++ invoked t2.
Proof. apply omap_app. Qed.

Lemma invoked_cons (ev : event) (tr : list event) :
  invoked (ev :: tr)
  = match ev with Invoke i => i :: invoked tr | _ => invoked tr end.
Proof. by destruct ev. Qed.

Lemma invoked_none (tr : list event) :
  Forall (fun ev => is_invoke ev = false) tr -> invoked tr = [].
Proof.
  induction 1 as [|ev tr Hev _ IH]; [reflexivity|].
  rewrite invoked_cons, IH. by destruct ev.
Qed.

Lemma elem_of_invoked (i : nat) (tr : list event) :
  i ∈ invoked tr <-> Invoke i ∈ tr.
Proof.
  unfold invoked. rewrite list_elem_of_omap. split.
  - intros (ev & Hev & Hi). destruct ev; try discriminate.
    by injection Hi as ->.
  - intros Hev. by exists (Invoke i).
Qed.

(** No job other than the first of a chain calls an entry point, and no job
    enqueues the first job of a chain. *)
Lemma later_jobs_invoke_nothing (j : job) (s : sched) :
  is_first j = false ->
  Forall (fun ev => is_invoke ev = false) (run_job j s).1.1.
Proof.
  destruct j as [i e|i e o|i e o|i e [|t]|i e [|t]|i [|r]|i [|n] w]; simpl;
    intros Hj; try discriminate; repeat constructor.
  - by destruct (disabled e); repeat constructor.
  - apply Forall_app. split; [|by repeat constructor].
    destruct (stack_of t); by repeat constructor.
  - destruct (all_result s); [by constructor|].
    case_match; by repeat constructor.
  - destruct (all_result s); by repeat constructor.
Qed.

Lemma next_not_first (j : job) : Forall (fun j' => is_first j' = false) (next j).
Proof.
  unfold next.
  destruct j as [i e|i e o|i e o|i e [|t]|i e [|t]|i [|r]|i [|n] w]; simpl;
    repeat constructor.
  destruct (entry_of e) as [f|t|]; [destruct (fn_completion f) as [[| |]|]|..];
    by repeat constructor.
Qed.

(** The first jobs of the chains produce the invocations, in order, and
    nothing else. *)
Lemma first_jobs_events (i : nat) (l : list Extension.t) (k : Kites)
  (s : sched) :
  (run_all (chains i l k) s).1 = Invoke <$> activated i l k.
Proof.
  revert i s. induction l as [|e l IH]; intros i s; [reflexivity|].
  rewrite chains_cons. cbn [activated]. unfold activates.
  destruct (disabled (merged e k)) eqn:Hd; cbn [negb andb app].
  - apply IH.
  - cbn [run_all run_job].
    destruct (entry_of (merged e k)) as [f|t|]; cbn [is_callable].
    + destruct (fn_completion f) as [[| |]|];
        match goal with
        | |- context [run_all (chains (S i) l k) ?s'] =>
            specialize (IH (S i) s');
            destruct (run_all (chains (S i) l k) s') as [evs s'']
        end; simpl in *; by rewrite IH.
    + specialize (IH (S i) s).
      destruct (run_all (chains (S i) l k) s) as [evs s'']. by simpl in *.
    + specialize (IH (S i) s).
      destruct (run_all (chains (S i) l k) s) as [evs s'']. by simpl in *.
Qed.

Lemma invoked_invoke (l : list nat) : invoked (Invoke <$> l) = l.
Proof.
  induction l as [|i l IH]; [reflexivity|].
  by rewrite fmap_cons, invoked_cons, IH.
Qed.

Lemma chains_first (i : nat) (l : list Extension.t) (k : Kites) :
  Forall (fun j => is_first j = true) (chains i l k).
Proof.
  apply Forall_forall. intros j Hj.
  by destruct (chains_spec _ _ _ _ Hj) as (n & e & _ & _ & ->).
Qed.

Lemma resolved_not_first (i : nat) (l : list Extension.t) (k : Kites) :
  Forall (fun j => is_first j = false) (resolved i l k).
Proof.
  apply Forall_forall. intros j Hj.
  by destruct (resolved_spec _ _ _ _ Hj) as (n & e & _ & _ & ->).
Qed.

Lemma bind_next_not_first (q : list job) :
  Forall (fun j => is_first j = false) (q ≫= next).
Proof.
  induction q as [|j q IH]; [by constructor|].
  rewrite bind_cons. apply Forall_app. split; [apply next_not_first|done].
Qed.

(** The trace of [useMany]: what the [useOne] calls log, then the
    invocations, one first job after the other, then everything else. *)
Lemma useMany_trace (l : list Extension.t) (k : Kites) :
  exists rest,
    act_trace (useMany l k)
    = skip_events 0 l k
      ++ match l with [] => [AllSettled Fulfilled] | _ => [] end
      ++ (Invoke <$> activated 0 l k) ++ rest
    /\ Forall (fun ev => is_invoke ev = false) rest
    /\ rest
       = (drain (total_weight (chains 0 l k ++ resolved 0 l k)
                 - length (chains 0 l k))
            (resolved 0 l k ++ (chains 0 l k ≫= next))
            (run_all (chains 0 l k) (sched0 l k)).2).1.1.
Proof.
  eexists. split; [|split; [|reflexivity]].
  - unfold useMany, skip_events, chains, resolved.
    destruct (useEach 0 l k) as [[[es ev] cs] rs] eqn:Hu.
    assert (Hcs : cs = chains 0 l k) by (unfold chains; by rewrite Hu).
    assert (Hrs : rs = resolved 0 l k) by (unfold resolved; by rewrite Hu).
    cbn [fst snd].
    pose proof (length_le_total_weight (cs ++ rs)) as Hlen.
    rewrite length_app in Hlen.
    replace (total_weight (cs ++ rs))
      with (length cs + (total_weight (cs ++ rs) - length cs))%nat at 1 by lia.
    rewrite drain_app_chain
      by (subst cs; eapply Forall_impl; [apply chains_first|];
          intros j; by destruct j).
    cbn [fst snd].
    destruct (drain _ (rs ++ (cs ≫= next)) _) as [[evs s'] rest'] eqn:Hdr.
    cbn [act_trace fst snd]. subst cs rs.
    rewrite first_jobs_events. reflexivity.
  - apply drain_events with (Q := fun j => is_first j = false).
    + apply later_jobs_invoke_nothing.
    + intros j _. apply next_not_first.
    + apply Forall_app. split;
        [apply resolved_not_first|apply bind_next_not_first].
Qed.

(** *** The descriptors that get activated *)

Lemma elem_of_activated (i n : nat) (l : list Extension.t) (k : Kites) :
  n ∈ activated i l k
  <-> exists m e, n = (i + m)%nat /\ l !! m = Some e /\ activates e k = true.
Proof.
  revert i. induction l as [|x l IH]; intros i.
  - simpl. split; [by intros ?%elem_of_nil|by intros (m & e & _ & ? & _)].
  - cbn [activated]. split.
    + intros Hn.
      assert (Hcases : (n = i /\ activates x k = true)
                       \/ n ∈ activated (S i) l k).
      { destruct (activates x k); [|by right].
        apply elem_of_cons in Hn as [->|Hn]; [by left|by right]. }
      destruct Hcases as [[-> Hx]|Hn'].
      * exists 0%nat, x. by rewrite Nat.add_0_r.
      * apply IH in Hn' as (m & e & -> & Hm & He).
        exists (S m), e. by rewrite Nat.add_succ_r.
    + intros (m & e & -> & Hm & He). destruct m as [|m]; simpl in Hm.
      * injection Hm as ->. rewrite He, Nat.add_0_r. left.
      * assert ((i + S m)%nat ∈ activated (S i) l k) as Hin.
        { apply IH. exists m, e. by rewrite Nat.add_succ_r. }
        destruct (activates x k); [by right|done].
Qed.

(** The positions come in increasing order. *)
Lemma activated_sorted (i : nat) (l : list Extension.t) (k : Kites) :
  StronglySorted lt (activated i l k).
Proof.
  revert i. induction l as [|x l IH]; intros i; [constructor|].
  cbn [activated]. destruct (activates x k); [|apply IH].
  constructor; [apply IH|]. apply Forall_forall. intros n Hn.
  apply elem_of_activated in Hn as (m & e & -> & _ & _). lia.
Qed.

(** *** Events and the positions they are about *)

Lemma next_index (j j' : job) : j' ∈ next j -> job_index j' = job_index j.
Proof.
  rewrite next_eq.
  destruct j as [i e|i e o|i e o|i e [|t]|i e [|t]|i [|r]|i [|n] w];
    [destruct (entry_of e) as [f|t|];
     [destruct (fn_completion f) as [[| |]|]|..]|..];
    intros Hin;
    repeat (apply elem_of_cons in Hin as [->|Hin]; [reflexivity|]);
    by apply elem_of_nil in Hin.
Qed.

(** A job leaves events about its own descriptor only, and the reactions
    of [Promise.all] leave none about any descriptor. *)
Lemma run_job_about (i : nat) (j : job) (s : sched) :
  job_index j <> i \/ is_all_element j = true ->
  Forall (fun ev => about i ev = false) (run_job j s).1.1.
Proof.
  intros Hj.
  assert (Hneq : is_all_element j = false -> Nat.eqb i (job_index j) = false).
  { intros Hall. apply Nat.eqb_neq. destruct Hj; congruence. }
  destruct j as [n e|n e o|n e o|n e [|t]|n e [|t]|n [|r]|n [|m] w];
    cbn [run_job fst snd]; simpl in Hneq; repeat constructor.
  - destruct (entry_of e) as [f|t|]; [destruct (fn_completion f) as [[| |]|]|..];
      repeat constructor; simpl; auto.
  - destruct (disabled e); repeat constructor; simpl; auto.
  - simpl; auto.
  - apply Forall_app. split.
    + destruct (stack_of t); by repeat constructor.
    + repeat constructor. simpl; auto.
  - destruct (all_result s); [by constructor|].
    case_match; by repeat constructor.
  - destruct (all_result s); by repeat constructor.
  - simpl; auto.
Qed.

Lemma next_about (i : nat) (j : job) :
  job_index j <> i \/ is_all_element j = true ->
  Forall (fun j' => job_index j' <> i \/ is_all_element j' = true) (next j).
Proof.
  intros [Hj|Hj].
  - apply Forall_forall. intros j' Hj'. left.
    by rewrite (next_index _ _ Hj').
  - destruct j; try discriminate. unfold next. simpl.
    destruct o; by constructor.
Qed.

(** The jobs run after the first of each chain leave no event about a
    disabled descriptor. *)
Lemma later_events_not_about_disabled (l : list Extension.t) (k : Kites)
  (i : nat) (e : Extension.t) (fuel : nat) (s : sched) :
  l !! i = Some e -> disabled (merged e k) = true ->
  Forall (fun ev => about i ev = false)
    (drain fuel (resolved 0 l k ++ (chains 0 l k ≫= next)) s).1.1.
Proof.
  intros Hi Hd.
  apply drain_events
    with (Q := fun j => job_index j <> i \/ is_all_element j = true).
  - apply run_job_about.
  - apply next_about.
  - apply Forall_app. split; apply Forall_forall; intros j Hj.
    + destruct (resolved_spec _ _ _ _ Hj) as (n & e' & _ & _ & ->). by right.
    + apply list_elem_of_bind in Hj as (j0 & Hj & Hj0).
      destruct (chains_spec _ _ _ _ Hj0) as (n & e' & Hn & Hd' & ->).
      left. rewrite (next_index _ _ Hj). simpl. intros ->. congruence.
Qed.

(** *** The promise of [Promise.all] *)

Lemma useMany_unfold (l : list Extension.t) (k : Kites) :
  useMany l k
  = {| act_extensions := (fun e => merged e k) <$> l;
       act_trace :=
         skip_events 0 l k
         ++ match l with [] => [AllSettled Fulfilled] | _ => [] end
         ++ (drain (total_weight (chains 0 l k ++ resolved 0 l k))
               (chains 0 l k ++ resolved 0 l k) (sched0 l k)).1.1;
       act_result :=
         all_result
           (drain (total_weight (chains 0 l k ++ resolved 0 l k))
              (chains 0 l k ++ resolved 0 l k) (sched0 l k)).1.2;
       act_added :=
         added
           (drain (total_weight (chains 0 l k ++ resolved 0 l k))
              (chains 0 l k ++ resolved 0 l k) (sched0 l k)).1.2;
       act_queue :=
         (drain (total_weight (chains 0 l k ++ resolved 0 l k))
            (chains 0 l k ++ resolved 0 l k) (sched0 l k)).2 |}.
Proof.
  unfold useMany, skip_events, chains, resolved.
  rewrite <- (useEach_extensions 0 l k).
  destruct (useEach 0 l k) as [[[es ev] cs] rs]. cbn [fst snd].
  by destruct (drain _ (cs ++ rs) _) as [[evs s'] rest].
Qed.

(** Once settled, the promise stays as it is. *)
Lemma run_job_sticky (j : job) (s : sched) (o : settled rejection) :
  all_result s = Some o -> all_result (run_job j s).1.2 = Some o.
Proof.
  intros Hs.
  destruct j as [i e|i e o'|i e o'|i e [|t]|i e [|t]|i [|r]|i [|n] w]; simpl;
    try done.
  - destruct (entry_of e) as [f|t|]; [destruct (fn_completion f) as [[| |]|]|..]; done.
  - by rewrite Hs.
  - by rewrite Hs.
Qed.

Lemma run_all_sticky (q : list job) (s : sched) (o : settled rejection) :
  all_result s = Some o -> all_result (run_all q s).2 = Some o.
Proof.
  revert s. induction q as [|j q IH]; intros s Hs; [done|]. simpl.
  pose proof (run_job_sticky j s o Hs) as Hj.
  destruct (run_job j s) as [[ev s'] js]. specialize (IH s' Hj).
  by destruct (run_all q s').
Qed.


Lemma drain_sticky (fuel : nat) (q : list job) (s : sched)
  (o : settled rejection) :
  all_result s = Some o -> all_result (drain fuel q s).1.2 = Some o.
Proof.
  revert q s. induction fuel as [|fuel IH]; intros q s Hs.
  - by destruct q.
  - destruct (forallb is_work q) eqn:Hwork; [by rewrite drain_stop|].
    destruct q as [|j q]; [done|]. rewrite (drain_step _ _ _ _ Hwork). simpl.
    by apply IH, run_job_sticky.
Qed.

(** Only the reactions of [Promise.all] touch its promise. *)
Lemma run_job_keeps_all (j : job) (s : sched) :
  is_all_element j = false ->
  remaining (run_job j s).1.2 = remaining s
  /\ all_result (run_job j s).1.2 = all_result s.
Proof.
  destruct j as [i e|i e o'|i e o'|i e [|t]|i e [|t]|i [|r]|i [|n] w]; simpl;
    try done.
  destruct (entry_of e) as [f|t|]; [destruct (fn_completion f) as [[| |]|]|..]; done.
Qed.


(** A job of a chain enqueues one job that is not of the work of an entry
    point: the next of its chain, or, when the promise [useOne] returned
    settles, the reaction of [Promise.all]. *)
Lemma chain_job_next (j : job) (s : sched) :
  is_all_element j = false -> is_work j = false ->
  chain_jobs (next j) = 1%nat
  /\ ((exists j', j' ∈ next j /\ is_all_element j' = false
                  /\ is_work j' = false /\ job_index j' = job_index j)
      \/ (exists o, AllElement (job_index j) o ∈ next j
                    /\ Settled (job_index j) o ∈ (run_job j s).1.1)).
Proof.
  rewrite next_eq.
  destruct j as [i e|i e o|i e o|i e [|t]|i e [|t]|i [|r]|i [|n] w];
    try done; intros _ _;
    try (split; [reflexivity|left; eexists; split; [left|done]]).
  - destruct (entry_of e) as [f|t|];
      [destruct (fn_completion f) as [[| |]|]|..];
      (split; [reflexivity|left; eexists]);
      try (split; [left|done]).
    split; [right; left|done].
  - split; [reflexivity|]. right. eexists. split; left.
  - split; [reflexivity|]. right. eexists. split; [left|].
    simpl. apply elem_of_app. right. left.
Qed.

Lemma all_element_next (j : job) : is_all_element j = true -> next j = [].
Proof. destruct j as [| | | | |i [|r]|]; by try discriminate. Qed.

Lemma work_next (j : job) : is_work j = true -> chain_jobs (next j) = 0%nat.
Proof.
  rewrite next_eq. destruct j as [| | | | | |i [|n] w]; by try discriminate.
Qed.

(** With one job in the queue for each element still missing, the promise
    of [Promise.all] is settled when the queue has run out. *)
Lemma drain_settles (fuel : nat) (q : list job) (s : sched) :
  (total_weight q <= fuel)%nat ->
  (all_result s = None ->
   remaining s = chain_jobs q /\ chain_jobs q <> 0%nat) ->
  all_result (drain fuel q s).1.2 <> None.
Proof.
  revert q s. induction fuel as [|fuel IH]; intros q s Hw Hinv.
  - destruct q as [|j q].
    + simpl. intros Hnone. by destruct (Hinv Hnone).
    + rewrite total_weight_cons in Hw. pose proof (weight_pos j). lia.
  - destruct (forallb is_work q) eqn:Hwork.
    { rewrite drain_stop by done. simpl. intros Hnone.
      destruct (Hinv Hnone) as [_ Hpos].
      by apply only_work_chain_jobs in Hwork. }
    destruct q as [|j q]; [done|].
    rewrite (drain_step _ _ _ _ Hwork). simpl.
    rewrite total_weight_cons in Hw. pose proof (weight_next j) as Hn.
    apply IH; [rewrite total_weight_app; lia|].
    destruct (all_result s) as [o|] eqn:Hs.
    { rewrite (run_job_sticky j s o Hs). done. }
    destruct (Hinv eq_refl) as [Hrem Hpos].
    rewrite chain_jobs_cons in Hrem, Hpos. rewrite chain_jobs_app.
    destruct (is_all_element j) eqn:Hall.
    + rewrite (all_element_next j Hall).
      destruct j as [| | | | |i [|r]|]; try discriminate; simpl in *;
        rewrite Hs, ?Hrem; simpl; [|done].
      destruct (chain_jobs q) eqn:Hq; simpl; [done|]. intros _.
      split; lia.
    + destruct (run_job_keeps_all j s Hall) as [Hr Ha].
      rewrite Hr, Ha, Hs, Hrem. intros _.
      destruct (is_work j) eqn:Hwj.
      * rewrite (work_next j Hwj). simpl in *. split; lia.
      * destruct (chain_job_next j s Hall Hwj) as [-> _]. split; lia.
Qed.

Lemma chains_no_work (i : nat) (l : list Extension.t) (k : Kites) :
  Forall (fun j => is_work j = false) (chains i l k ++ resolved i l k).
Proof.
  apply Forall_app. split; apply Forall_forall; intros j Hj.
  - by destruct (chains_spec _ _ _ _ Hj) as (n & e & _ & _ & ->).
  - by destruct (resolved_spec _ _ _ _ Hj) as (n & e & _ & _ & ->).
Qed.

Lemma chain_jobs_start (i : nat) (l : list Extension.t) (k : Kites) :
  chain_jobs (chains i l k ++ resolved i l k) = length l.
Proof.
  rewrite (chain_jobs_length _ (chains_no_work i l k)), length_app.
  apply chains_resolved_length.
Qed.

(** The promise [useMany] returns is settled. *)
Lemma useMany_settles (l : list Extension.t) (k : Kites) :
  act_result (useMany l k) <> None.
Proof.
  rewrite useMany_unfold. cbn [act_result].
  apply drain_settles; [done|]. unfold sched0. simpl.
  destruct l as [|e l]; [done|]. intros _.
  by rewrite chain_jobs_start.
Qed.

(** When the promise of [Promise.all] is fulfilled, every chain in the
    queue has fulfilled the promise [useOne] returned. *)
Lemma drain_fulfilled (fuel : nat) (q : list job) (s : sched) :
  all_result s = None -> remaining s = chain_jobs q ->
  all_result (drain fuel q s).1.2 = Some Fulfilled ->
  Forall (fun j =>
            match j with
            | AllElement _ o => o = Fulfilled
            | Work _ _ _ => True
            | _ => Settled (job_index j) Fulfilled ∈ (drain fuel q s).1.1
            end) q.
Proof.
  revert q s. induction fuel as [|fuel IH]; intros q s Hs Hrem Hend.
  - destruct q; simpl in Hend; congruence.
  - destruct (forallb is_work q) eqn:Hwork.
    { rewrite drain_stop in Hend by done. simpl in Hend. congruence. }
    destruct q as [|j q]; [by constructor|].
    rewrite (drain_step _ _ _ _ Hwork) in Hend |- *.
    cbn [fst snd] in Hend |- *. clear Hwork.
    rewrite chain_jobs_cons in Hrem.
    destruct (is_all_element j) eqn:Hall.
    + rewrite (all_element_next j Hall), app_nil_r in Hend |- *.
      destruct j as [| | | | |i [|r]|]; try discriminate.
      * constructor; [done|]. simpl in Hrem, Hend |- *.
        rewrite Hs, Hrem in Hend |- *. simpl in Hend |- *.
        destruct (chain_jobs q) as [|m] eqn:Hq; simpl in Hend |- *.
        -- (* the promise is fulfilled here: what is left is work *)
           clear IH Hend. apply Forall_forall. intros j Hj.
           assert (Hw : is_work j = true).
           { apply list_elem_of_lookup_1 in Hj as [n Hn].
             apply (take_drop_middle q n j) in Hn. rewrite <- Hn in Hq.
             rewrite chain_jobs_app, chain_jobs_cons in Hq.
             destruct (is_work j); [done|lia]. }
           by destruct j.
        -- apply IH in Hend; [|reflexivity|by rewrite Hq].
           eapply Forall_impl; [exact Hend|]. intros j. by destruct j.
      * exfalso. simpl in Hend. rewrite Hs in Hend. cbn [fst snd] in Hend.
        rewrite drain_sticky with (o := Rejected r) in Hend; done.
    + destruct (run_job_keeps_all j s Hall) as [Hr Ha].
      specialize (IH (q ++ next j) (run_job j s).1.2).
      rewrite Ha, Hr, chain_jobs_app in IH.
      destruct (is_work j) eqn:Hwj.
      * rewrite (work_next j Hwj) in IH. simpl in Hrem.
        specialize (IH Hs ltac:(lia) Hend).
        apply Forall_app in IH as [IHq _]. constructor.
        -- by destruct j.
        -- eapply Forall_impl; [exact IHq|]. intros j0 Hj0.
           destruct j0; try done; apply elem_of_app; by right.
      * destruct (chain_job_next j s Hall Hwj) as [Hone Hnext].
        rewrite Hone in IH. specialize (IH Hs ltac:(lia) Hend).
        apply Forall_app in IH as [IHq IHn]. rewrite Forall_forall in IHn.
        constructor.
        -- assert (Hgoal : Settled (job_index j) Fulfilled
                           ∈ (run_job j s).1.1
                             ++ (drain fuel (q ++ next j)
                                   (run_job j s).1.2).1.1).
           { destruct Hnext as [(j' & Hin & Hall' & Hwork' & Hidx)
                               |(o & Hin & Hev)];
               specialize (IHn _ Hin).
             - apply elem_of_app. right. rewrite <- Hidx.
               destruct j'; try discriminate; exact IHn.
             - simpl in IHn. subst o. apply elem_of_app. by left. }
           by destruct j.
        -- eapply Forall_impl; [exact IHq|]. intros j0 Hj0.
           destruct j0; try done; apply elem_of_app; by right.
Qed.

Lemma chains_complete (i n : nat) (l : list Extension.t) (k : Kites)
  (e : Extension.t) :
  l !! n = Some e -> disabled (merged e k) = false ->
  FirstThen (i + n) (merged e k) ∈ chains i l k.
Proof.
  revert i n. induction l as [|x l IH]; intros i n Hn Hd; [done|].
  rewrite chains_cons. destruct n as [|n]; simpl in Hn.
  - injection Hn as ->. rewrite Hd, Nat.add_0_r. left.
  - apply elem_of_app. right. rewrite Nat.add_succ_r.
    by apply (IH (S i) n).
Qed.

(** When the promise [useMany] returns is fulfilled, the promise [useOne]
    returned for each descriptor has been fulfilled. *)
Lemma useMany_fulfilled (l : list Extension.t) (k : Kites) (i : nat) :
  act_result (useMany l k) = Some Fulfilled ->
  (i < length l)%nat ->
  Settled i Fulfilled ∈ act_trace (useMany l k).
Proof.
  rewrite useMany_unfold. cbn [act_result act_trace]. intros Hend Hi.
  destruct (lookup_lt_is_Some_2 l i Hi) as [e He].
  destruct (disabled (merged e k)) eqn:Hd.
  - apply elem_of_app. left. by apply (skip_events_disabled 0 l k i e).
  - apply elem_of_app. right. apply elem_of_app. right.
    destruct l as [|x l]; [done|].
    apply drain_fulfilled in Hend as Hall;
      [|reflexivity|by rewrite chain_jobs_start].
    rewrite Forall_forall in Hall.
    apply (Hall (FirstThen i (merged e k))).
    apply elem_of_app. left. by apply (chains_complete 0 i).
Qed.

(** *** The queue run to its end *)



(** *** The first failure *)









Lemma errorMsg_merged (e : Extension.t) (k : Kites) (o : gmap string jsval)
  (st : option string) :
  errorMsg (Extension.with_options o (merged e k)) st = errorMsg e st.
Proof. unfold merged. by rewrite useOne_descriptor. Qed.




(** *** Success *)





(** The queue of [useMany] is run until only work of the entry points is
    left in it. *)
Lemma useMany_runs_out (l : list Extension.t) (k : Kites) :
  forallb is_work (act_queue (useMany l k)) = true.
Proof.
  rewrite useMany_unfold. cbn [act_queue]. by apply drain_runs_out.
Qed.

End Jobs.

(** ** Activation order *)

Lemma app_split_elem {A : Type} (a b pre post : list A) (x : A) :
  a ++ b = pre ++ x :: post -> x ∈ a \/ exists b1, b = b1 ++ x :: post.
Proof.
  revert pre. induction a as [|y a IH]; intros pre Heq; simpl in Heq.
  - right. by exists pre.
  - destruct pre as [|z pre]; simpl in Heq; injection Heq as -> Heq.
    + left. left.
    + destruct (IH _ Heq) as [Hin|Hb]; [left; by right|by right].
Qed.

Section Orchestration.
Context `{Host}.
Import ExtensionsManager.

(** The entry points called are those of the descriptors that get
    activated, in the order of the list. *)
Lemma useMany_invoked (l : list Extension.t) (k : Kites) :
  invoked (act_trace (useMany l k)) = activated 0 l k.
Proof.
  destruct (useMany_trace l k) as (rest & Htr & Hrest & _).
  assert (Hskip : Forall (fun ev => is_invoke ev = false) (skip_events 0 l k)).
  { apply Forall_forall. intros ev Hev.
    by destruct (skip_events_spec _ _ _ _ Hev) as (n & e & _ & _ & [->| ->]). }
  rewrite Htr, !invoked_app, (invoked_none _ Hskip), (invoked_none _ Hrest).
  rewrite invoked_invoke, app_nil_r. by destruct l.
Qed.

(** Once the promise [useOne] returned for a descriptor that is not
    disabled has settled, no entry point is called any more. *)
Lemma useMany_no_call_after_settlement (l : list Extension.t) (k : Kites)
  (pre post : list event) (i : nat) (o : settled rejection)
  (e : Extension.t) :
  act_trace (useMany l k) = pre ++ Settled i o :: post ->
  l !! i = Some e -> disabled (merged e k) = false ->
  invoked post = [].
Proof.
  destruct (useMany_trace l k) as (rest & Htr & Hrest & _).
  intros Hsplit Hi Hd. rewrite Htr, !app_assoc in Hsplit.
  apply app_split_elem in Hsplit as [Hin|(b1 & Hb1)].
  - exfalso. apply elem_of_app in Hin as [Hin|Hin];
      [apply elem_of_app in Hin as [Hin|Hin]|].
    + destruct (skip_events_spec _ _ _ _ Hin) as (n & e' & Hn & Hd' & [?|Heq]);
        [discriminate|].
      injection Heq as -> _. simpl in Hn. congruence.
    + destruct l; [apply list_elem_of_singleton in Hin|apply elem_of_nil in Hin];
        done.
    + apply list_elem_of_fmap in Hin as (n & ? & _). discriminate.
  - apply invoked_none in Hrest. rewrite Hb1, invoked_app in Hrest.
    apply app_eq_nil in Hrest as [_ Hpost].
    by rewrite invoked_cons in Hpost.
Qed.

(** Nor is a call held back by the work an entry point has started: when
    the promise an entry point returned settles, every entry point has
    already been called. *)
Lemma useMany_no_call_after_work (l : list Extension.t) (k : Kites)
  (pre post : list event) (i : nat) (o : settled thrown) :
  act_trace (useMany l k) = pre ++ ReturnedSettled i o :: post ->
  invoked post = [].
Proof.
  destruct (useMany_trace l k) as (rest & Htr & Hrest & _).
  intros Hsplit. rewrite Htr, !app_assoc in Hsplit.
  apply app_split_elem in Hsplit as [Hin|(b1 & Hb1)].
  - exfalso. apply elem_of_app in Hin as [Hin|Hin];
      [apply elem_of_app in Hin as [Hin|Hin]|].
    + by destruct (skip_events_spec _ _ _ _ Hin) as (n & e' & _ & _ & [?|?]).
    + destruct l; [apply list_elem_of_singleton in Hin|apply elem_of_nil in Hin];
        done.
    + apply list_elem_of_fmap in Hin as (n & ? & _). discriminate.
  - apply invoked_none in Hrest. rewrite Hb1, invoked_app in Hrest.
    apply app_eq_nil in Hrest as [_ Hpost].
    by rewrite invoked_cons in Hpost.
Qed.

(** C1, as the code has it. The entry points are called in the order of the
    list, those of the descriptors that are not disabled and have an entry
    point, each once; but no call waits for the activation before it: when
    the promise [useOne] returned for a descriptor that is not disabled
    settles, every entry point of the list has already been called, and so
    it is when the promise an entry point returned for its asynchronous
    work settles. *)
Theorem useMany_invokes_in_order_without_waiting
  (l : list Extension.t) (k : Kites) :
  invoked (act_trace (useMany l k)) = activated 0 l k
  /\ StronglySorted lt (invoked (act_trace (useMany l k)))
  /\ (forall pre i o post e,
        act_trace (useMany l k) = pre ++ Settled i o :: post ->
        l !! i = Some e -> disabled (merged e k) = false ->
        invoked post = [])
  /\ (forall pre i o post,
        act_trace (useMany l k) = pre ++ ReturnedSettled i o :: post ->
        invoked post = []).
Proof.
  split; [apply useMany_invoked|].
  split; [rewrite useMany_invoked; apply activated_sorted|].
  split.
  - intros pre i o post e. apply useMany_no_call_after_settlement.
  - intros pre i o post. apply useMany_no_call_after_work.
Qed.

(** The entry point at a position is called when the descriptor there gets
    activated, and only then. *)
Lemma useMany_invoke_lookup (l : list Extension.t) (k : Kites) (i : nat) :
  Invoke i ∈ act_trace (useMany l k)
  <-> exists e, l !! i = Some e /\ activates e k = true.
Proof.
  rewrite <- elem_of_invoked, useMany_invoked, elem_of_activated. split.
  - intros (m & e & -> & Hm & He). by exists e.
  - intros (e & Hi & He). by exists i, e.
Qed.

(** ** Disabled extensions *)

(** C3, as the code has it. A descriptor whose merged options have
    [enabled === false] is skipped without error: its entry point is never
    called, the promise of its activation is fulfilled, the skip is logged
    at debug level, and no [extension:registered] notification is emitted
    for it. *)
Theorem disabled_extension_is_skipped_silently
  (l : list Extension.t) (k : Kites) (i : nat) (e : Extension.t) :
  l !! i = Some e ->
  disabled (merged e k) = true ->
  (Invoke i ∉ act_trace (useMany l k))
  /\ (Registered i ∉ act_trace (useMany l k))
  /\ (forall r, Settled i (Rejected r) ∉ act_trace (useMany l k))
  /\ (Settled i Fulfilled ∈ act_trace (useMany l k))
  /\ (Log Debug (DisabledSkipping (Extension.name e))
      ∈ act_trace (useMany l k)).
Proof.
  intros Hi Hd.
  destruct (useMany_trace l k) as (rest & Htr & _ & Hrest).
  assert (Habout : forall ev, ev ∈ act_trace (useMany l k) ->
            about i ev = true -> ev = Settled i Fulfilled).
  { intros ev Hev Hab. rewrite Htr in Hev.
    apply elem_of_app in Hev as [Hev|Hev];
      [|apply elem_of_app in Hev as [Hev|Hev];
        [|apply elem_of_app in Hev as [Hev|Hev]]].
    - destruct (skip_events_spec _ _ _ _ Hev) as (n & e' & _ & _ & [->| ->]);
        [discriminate|].
      simpl in Hab. by apply Nat.eqb_eq in Hab as ->.
    - destruct l; [apply list_elem_of_singleton in Hev as ->|
                   apply elem_of_nil in Hev]; done.
    - apply list_elem_of_fmap in Hev as (n & -> & Hn). exfalso.
      simpl in Hab. apply Nat.eqb_eq in Hab as <-.
      apply elem_of_activated in Hn as (m & e' & Hm & Hlm & Hact).
      simpl in Hm. subst m. unfold activates in Hact.
      assert (e' = e) as -> by congruence. by rewrite Hd in Hact.
    - exfalso. rewrite Hrest in Hev.
      pose proof (later_events_not_about_disabled l k i e
                    (total_weight (chains 0 l k ++ resolved 0 l k)
                     - length (chains 0 l k))
                    (run_all (chains 0 l k) (sched0 l k)).2 Hi Hd) as Hall.
      rewrite Forall_forall in Hall. specialize (Hall _ Hev). congruence. }
  split; [|split; [|split]].
  - intros Hin. specialize (Habout _ Hin). simpl in Habout.
    rewrite Nat.eqb_refl in Habout. by specialize (Habout eq_refl).
  - intros Hin. specialize (Habout _ Hin). simpl in Habout.
    rewrite Nat.eqb_refl in Habout. by specialize (Habout eq_refl).
  - intros r Hin. specialize (Habout _ Hin). simpl in Habout.
    rewrite Nat.eqb_refl in Habout. by specialize (Habout eq_refl).
  - destruct (skip_events_disabled 0 l k i e Hi Hd) as [Hlog Hset].
    rewrite Htr. split; apply elem_of_app; by left.
Qed.

End Orchestration.

(** ** The initialize sequence of the extensions manager *)

Section Initialize.
Context `{Host}.
Import ExtensionsManager.

(** [init] hands the selected descriptors, sorted, to [useMany] and returns
    its promise. *)
Lemma init_unfold (k : Kites) (o : gmap string jsval) (ev : list event)
  (found l : list Extension.t) :
  discovery k = Some (o, ev, found) ->
  selected o found k = Ok l ->
  init k
  = {| trace := ev ++ act_trace (useMany (sort_extensions l)
                                   (with_kites_options o k));
       promise := act_result (useMany (sort_extensions l)
                                (with_kites_options o k));
       state :=
         with_listeners
           (act_added (useMany (sort_extensions l) (with_kites_options o k)))
           (with_available
              (act_extensions (useMany (sort_extensions l)
                                 (with_kites_options o k)))
              (with_kites_options o k)) |}.
Proof. intros Hd Hs. unfold init, init_from. by rewrite Hd, Hs. Qed.

(** Discovery logs one message and calls no entry point. *)
Lemma discovery_events (k : Kites) (o : gmap string jsval) (ev : list event)
  (found : list Extension.t) :
  discovery k = Some (o, ev, found) -> exists m, ev = [Log Debug m].
Proof.
  unfold discovery. destruct (shift _) as [[autodiscover rest]|]; [|done].
  destruct (truthy autodiscover).
  - destruct rest; intros [= <- <- <-]; by eexists.
  - intros [= <- <- <-]. by eexists.
Qed.

(** Discovery rewrites [options.discover] and nothing else. *)
Lemma discovery_options (k : Kites) (o : gmap string jsval) (ev : list event)
  (found : list Extension.t) (key : string) :
  discovery k = Some (o, ev, found) -> key <> "discover" ->
  get o key = get (options k) key.
Proof.
  intros Hd Hkey.
  assert (Hnorm : get (normalized_discover (options k)) key
                  = get (options k) key).
  { unfold normalized_discover, get.
    destruct (default JUndefined (options k !! "discover"))
      as [| |b|z|s|l|m]; try done.
    - by rewrite lookup_insert_ne.
    - repeat case_match; by rewrite lookup_insert_ne. }
  revert Hd. unfold discovery.
  destruct (shift _) as [[autodiscover rest]|]; [|done].
  destruct (truthy autodiscover).
  - destruct rest; intros [= <- <- <-]; rewrite <- Hnorm; unfold get;
      by rewrite lookup_insert_ne.
  - intros [= <- <- <-]. rewrite <- Hnorm. unfold get.
    by rewrite lookup_insert_ne.
Qed.

(** Discovery goes through when [options.discover] is a boolean, a string
    or an array, and only then. *)
Lemma discovery_defined (k : Kites) :
  match get (options k) "discover" with
  | JBool _ | JStr _ | JArr _ => is_Some (discovery k)
  | _ => discovery k = None
  end.
Proof.
  unfold discovery, normalized_discover.
  destruct (get (options k) "discover") as [| |b|z|s|l|m] eqn:Hd;
    try (by rewrite Hd).
  - rewrite get_insert_eq. simpl. destruct b; by eexists.
  - destruct (String.eqb s "undefined"); rewrite get_insert_eq; simpl;
      by eexists.
  - rewrite Hd. destruct l as [|x l]; simpl; [by eexists|].
    destruct (truthy x); [destruct l|]; by eexists.
Qed.

(** The promise [init] returns is settled. *)
Lemma manager_init_settles (k : Kites) : promise (init k) <> None.
Proof.
  unfold init, init_from.
  destruct (discovery k) as [[[o ev] found]|]; [|done].
  destruct (selected o found k); [apply useMany_settles|done].
Qed.



Lemma selected_allow_list (k : Kites) (names : list jsval)
  (o : gmap string jsval) (ev : list event) (found : list Extension.t) :
  get (options k) "extensions" = JArr names ->
  discovery k = Some (o, ev, found) ->
  selected o found k
  = Ok (List.filter (listed names) (found ++ usedExtensions k)).
Proof.
  intros Hnames Hd. unfold selected.
  by rewrite (discovery_options _ _ _ _ "extensions" Hd), Hnames.
Qed.


End Initialize.

(** ** Failure of an activation *)

Section Failure.
Context `{Host}.
Import ExtensionsManager.



(** A promise returned by an entry point is not looked at: whatever the
    entry point returns, its chain goes on as after a call that returned
    nothing, with a fulfilled promise. *)
Lemma first_job_ignores_returned (i : nat) (e : Extension.t) (s : sched)
  (f : jsfunction) (v : returned) :
  entry_of e = Callable f ->
  fn_completion f = Returns v ->
  (run_job (FirstThen i e) s).1.1 = [Invoke i]
  /\ List.filter (fun j => negb (is_work j)) (next (FirstThen i e))
     = [ResolveThenable i
          (Extension.with_options
             (assign_props (fn_sets f) (default ∅ (Extension.options e))) e)
          Fulfilled].
Proof.
  intros He Hf. rewrite next_eq. simpl. rewrite He, Hf. by destruct v.
Qed.

End Failure.

(** ** Startup of the runtime instance *)

Section Startup.
Context `{Host}.

Lemma loadConfig_readiness (k : Kites) :
  same_readiness k (KitesInstance._loadConfig k).1.
Proof.
  unfold KitesInstance._loadConfig.
  repeat (case_match; simpl; try done).
Qed.

Lemma initOptions_readiness (k : Kites) :
  same_readiness k (KitesInstance._initOptions k).1.2.
Proof.
  unfold KitesInstance._initOptions. case_match; [|done].
  pose proof (loadConfig_readiness k) as Hl.
  destruct (KitesInstance._loadConfig k) as [k1 [r|]]; simpl in *; done.
Qed.

Lemma manager_init_readiness (k : Kites) :
  same_readiness k (state (ExtensionsManager.init k)).
Proof.
  unfold ExtensionsManager.init, ExtensionsManager.init_from.
  destruct (ExtensionsManager.discovery k) as [[[o ev] found]|]; [|done].
  by destruct (ExtensionsManager.selected o found k).
Qed.

(** When the promise of [ExtensionsManager.init] is fulfilled, the promise
    [useOne] returned for each available descriptor has been fulfilled. *)
Lemma manager_init_fulfilled (k : Kites) (i : nat) :
  promise (ExtensionsManager.init k) = Some Fulfilled ->
  (i < length (availableExtensions (state (ExtensionsManager.init k))))%nat ->
  Settled i Fulfilled ∈ trace (ExtensionsManager.init k).
Proof.
  unfold ExtensionsManager.init, ExtensionsManager.init_from.
  destruct (ExtensionsManager.discovery k) as [[[o ev] found]|]; [|done].
  destruct (ExtensionsManager.selected o found k) as [l|r]; [|done].
  cbn [promise state trace]. unfold with_listeners, with_available.
  cbn [availableExtensions]. intros Hp Hi.
  apply elem_of_app. right. apply useMany_fulfilled; [done|].
  rewrite useMany_unfold in Hi. cbn in Hi.
  by rewrite length_fmap in Hi.
Qed.

(** When the firing is fulfilled, every deferred initializer was called, in
    the order of registration. *)
Lemma fire_fulfilled (listeners : list initializer) (ev : list event) :
  KitesInstance.fire listeners = (ev, Fulfilled) ->
  ev = (fun l => Fired (li_label l)) <$> listeners.
Proof.
  revert ev. induction listeners as [|l rest IH]; intros ev; simpl.
  - by intros [= <-].
  - destruct (li_result l); [|done].
    destruct (KitesInstance.fire rest) as [ev' o]. intros [= <- ->].
    by rewrite (IH ev' eq_refl).
Qed.

(** C6, as the code has it. When [init] succeeds on an instance that was not
    initialized, the [initialized] notification is emitted, and with it the
    readiness promise resolved, only after the activation promise of every
    available extension has been fulfilled and every deferred initializer has
    been called; but [isInitialized] is still false while the listeners of
    the notification run. The flag is set right after, so that the
    callbacks attached with [ready] see it true. *)
Theorem init_emits_initialized_before_setting_the_flag (k : Kites) :
  initialized k = false ->
  promise (KitesInstance.init k) = Some Fulfilled ->
  exists before,
    trace (KitesInstance.init k)
    = before
      ++ [Log Info KitesInitialized; EmitInitialized false]
      ++ ((fun label => ReadyCallback label true) <$> readyCallbacks k)
    /\ initialized (state (KitesInstance.init k)) = true
    /\ (forall i,
          (i < length (availableExtensions (state (KitesInstance.init k))))%nat ->
          Settled i Fulfilled ∈ before)
    /\ (forall l, l ∈ initializeListeners (state (KitesInstance.init k)) ->
                  Fired (li_label l) ∈ before).
Proof.
  intros Hflag. unfold KitesInstance.init.
  pose proof (initOptions_readiness k) as Hopt.
  destruct (KitesInstance._initOptions k) as [[ev0 k0] [r|]]; [done|].
  cbn [fst snd] in Hopt.
  set (k1 := if truthy (get (options k0) "logger")
                && is_true (prop (get (options k0) "logger") "silent")
             then KitesInstance._silentLogs k0 else k0).
  assert (Hk1 : same_readiness k0 k1).
  { unfold k1. by case_match. }
  pose proof (manager_init_readiness k1) as Hm.
  pose proof (manager_init_fulfilled k1) as Hsettled.
  destruct (promise (ExtensionsManager.init k1)) as [[|r]|]; [|done|done].
  pose proof (fire_fulfilled
                (initializeListeners (state (ExtensionsManager.init k1))))
    as Hfire.
  destruct (KitesInstance.fire _) as [ev2 [|r]]; [|done].
  cbn [promise trace state]. intros _.
  assert (Hinit : initialized (state (ExtensionsManager.init k1)) = false).
  { destruct Hopt as [Ho _], Hk1 as [Hs _], Hm as [Hm _]. congruence. }
  assert (Hready : readyCallbacks (state (ExtensionsManager.init k1))
                   = readyCallbacks k).
  { destruct Hopt as [_ Ho], Hk1 as [_ Hs], Hm as [_ Hm]. congruence. }
  exists (ev0 ++ [Log Info
                    (Initializing (get (options k0) "env")
                       (if truthy (get (options k0) "loadConfig")
                        then Some (get (options k0) "configFile") else None))]
          ++ trace (ExtensionsManager.init k1) ++ ev2).
  split; [|split; [done|split]].
  - unfold KitesInstance.run_ready, KitesInstance.isInitialized.
    cbn [readyCallbacks initialized with_initialized].
    rewrite Hinit, Hready. by rewrite <- !app_assoc.
  - intros i Hi. cbn [availableExtensions with_initialized] in Hi.
    apply elem_of_app. right. apply elem_of_app. right.
    apply elem_of_app. left. by apply Hsettled.
  - intros l Hl. cbn [initializeListeners with_initialized] in Hl.
    rewrite (Hfire ev2 eq_refl).
    apply elem_of_app. right. apply elem_of_app. right.
    apply elem_of_app. right.
    by apply (list_elem_of_fmap_2 (fun l => Fired (li_label l))).
Qed.

(** C8, as the code has it. When loading of the configuration is enabled
    ([options.loadConfig] is truthy) and [options.configFile] names a file
    that does not exist, [init] is rejected with an error that names the
    file, before anything else happens: no callback, no entry point. *)
Theorem missing_config_file_is_fatal_when_loading
  (k : Kites) (file path : string) :
  truthy (get (options k) "loadConfig") = true ->
  get (options k) "configFile" = JStr file ->
  file <> "" ->
  KitesInstance.configFilePath file k = Ok path ->
  fs_existsSync path = false ->
  promise (KitesInstance.init k)
  = Some (Rejected (NewError ("Config file " +:+ file +:+ " was not found.")))
  /\ contains file ("Config file " +:+ file +:+ " was not found.")
  /\ trace (KitesInstance.init k) = []
  /\ state (KitesInstance.init k) = k.
Proof.
  intros Hload Hfile Hne Hpath Hmissing.
  assert (Hopt : KitesInstance._initOptions k
                 = ([], k, Some (NewError ("Config file " +:+ file
                                           +:+ " was not found.")))).
  { unfold KitesInstance._initOptions, KitesInstance._loadConfig.
    rewrite Hload, Hfile. simpl.
    destruct (String.eqb_spec file ""); [done|]. simpl.
    by rewrite Hpath, Hmissing. }
  unfold KitesInstance.init. rewrite Hopt. cbn [promise trace state].
  split; [done|]. split; [apply contains_app_middle|done].
Qed.

(** Without [options.loadConfig] the configuration file is not looked for. *)
Lemma initOptions_without_loadConfig (k : Kites) :
  truthy (get (options k) "loadConfig") = false ->
  KitesInstance._initOptions k = ([], k, None).
Proof. intros Hload. unfold KitesInstance._initOptions. by rewrite Hload. Qed.

(** The promise [init] returns is settled. *)
Lemma init_settles (k : Kites) : promise (KitesInstance.init k) <> None.
Proof.
  unfold KitesInstance.init.
  destruct (KitesInstance._initOptions k) as [[ev0 k0] [r|]]; [done|].
  match goal with
  | |- context [ExtensionsManager.init ?k1] =>
      pose proof (manager_init_settles k1) as Hm;
      destruct (promise (ExtensionsManager.init k1)) as [[|r]|]
  end; [|done|done].
  by destruct (KitesInstance.fire _) as [ev2 [|r]].
Qed.

End Startup.

(** ** Each activation, from its start to its end *)

Lemma app_split_before {A : Type} (a b pre post : list A) (x : A) :
  a ++ b = pre ++ x :: post -> x ∉ a -> exists mid, pre = a ++ mid.
Proof.
  revert pre. induction a as [|y a IH]; intros pre Heq Hx.
  - by exists pre.
  - destruct pre as [|z pre]; simpl in Heq; injection Heq as -> Heq.
    + exfalso. apply Hx. left.
    + destruct (IH pre Heq) as [mid ->]; [|by exists mid].
      intros Hin. apply Hx. by right.
Qed.

Section Chains.
Context `{Host}.
Import ExtensionsManager.

Lemma chain_events_step (j : job) (s : sched) :
  is_all_element j = false -> is_work j = false ->
  chain_events j = (run_job j s).1.1 ++ (next j ≫= chain_events).
Proof.
  rewrite next_eq.
  destruct j as [i e|i e o|i e o|i e [|t]|i e [|t]|i [|r]|i [|n] w];
    try discriminate; intros _ _; cbn [run_job chain_events fst snd];
    rewrite ?bind_singleton; cbn [chain_events second_events];
    rewrite ?app_nil_r; try reflexivity.
  unfold failure, after_entry.
  destruct (entry_of e) as [f|t|]; [destruct (fn_completion f) as [[| |]|]|..];
    cbn [is_callable fst snd]; rewrite ?bind_singleton, ?bind_cons, ?bind_nil;
    cbn [chain_events]; rewrite ?app_nil_r; reflexivity.
Qed.

Lemma chain_events_work (j : job) :
  is_work j = true -> chain_events j = [].
Proof. by destruct j. Qed.

Lemma chain_events_all_element (j : job) :
  is_all_element j = true -> chain_events j = [].
Proof. by destruct j. Qed.

Lemma next_work (j j' : job) :
  is_work j = true -> j' ∈ next j -> is_work j' = true.
Proof.
  rewrite next_eq. destruct j as [| | | | | |i [|n] w]; try discriminate.
  - by intros _ ?%elem_of_nil.
  - by intros _ ->%list_elem_of_singleton.
Qed.

(** Every event of a chain gets into the trace: the queue is not left
    before the chain is through. *)
Lemma drain_chain_events (fuel : nat) (q : list job) (s : sched) (j : job)
  (ev : event) :
  (total_weight q <= fuel)%nat -> j ∈ q -> ev ∈ chain_events j ->
  ev ∈ (drain fuel q s).1.1.
Proof.
  revert q s j. induction fuel as [|fuel IH]; intros q s j Hw Hj Hev.
  - destruct q as [|j0 q]; [by apply elem_of_nil in Hj|].
    rewrite total_weight_cons in Hw. pose proof (weight_pos j0). lia.
  - destruct (forallb is_work q) eqn:Hwork.
    { exfalso. rewrite forallb_forall in Hwork.
      apply list_elem_of_In, Hwork in Hj.
      rewrite (chain_events_work _ Hj) in Hev. by apply elem_of_nil in Hev. }
    destruct q as [|j0 q]; [done|].
    rewrite (drain_step _ _ _ _ Hwork). cbn [fst snd].
    assert (Hw' : (total_weight (q ++ next j0) <= fuel)%nat).
    { rewrite total_weight_cons in Hw. rewrite total_weight_app.
      pose proof (weight_next j0). lia. }
    apply elem_of_cons in Hj as [->|Hj].
    + destruct (is_all_element j0) eqn:Hall.
      { rewrite (chain_events_all_element _ Hall) in Hev.
        by apply elem_of_nil in Hev. }
      destruct (is_work j0) eqn:Hwj.
      { rewrite (chain_events_work _ Hwj) in Hev. by apply elem_of_nil in Hev. }
      rewrite (chain_events_step j0 s Hall Hwj) in Hev.
      apply elem_of_app in Hev as [Hev|Hev]; apply elem_of_app; [by left|].
      right. apply list_elem_of_bind in Hev as (j' & Hev & Hj').
      apply (IH _ _ j'); [done| |done]. apply elem_of_app. by right.
    + apply elem_of_app. right.
      apply (IH _ _ j); [done| |done]. apply elem_of_app. by left.
Qed.

(** What a job leaves is the settlement of [Promise.all], the settlement of
    a promise an entry point returned, or an event of its chain. *)
Lemma run_job_event_origin (j : job) (s : sched) (ev : event) :
  ev ∈ (run_job j s).1.1 ->
  (exists o, ev = AllSettled o) \/ (exists i o, ev = ReturnedSettled i o)
  \/ ev ∈ chain_events j.
Proof.
  destruct (is_all_element j) eqn:Hall; [|destruct (is_work j) eqn:Hwj].
  - destruct j as [| | | | |i [|r]|]; try discriminate; simpl.
    + destruct (all_result s); [by intros ?%elem_of_nil|].
      case_match; [|by intros ?%elem_of_nil].
      intros ->%list_elem_of_singleton. left. by eexists.
    + destruct (all_result s); [by intros ?%elem_of_nil|].
      intros ->%list_elem_of_singleton. left. by eexists.
  - destruct j as [| | | | | |i [|n] w]; try discriminate; simpl.
    + intros ->%list_elem_of_singleton. right; left. by eexists _, _.
    + by intros ?%elem_of_nil.
  - intros Hev. right; right. rewrite (chain_events_step j s Hall Hwj).
    apply elem_of_app. by left.
Qed.

(** Nothing else gets into the trace. *)
Lemma drain_event_origin (fuel : nat) (q : list job) (s : sched) (ev : event) :
  ev ∈ (drain fuel q s).1.1 ->
  (exists o, ev = AllSettled o) \/ (exists i o, ev = ReturnedSettled i o)
  \/ exists j, j ∈ q /\ ev ∈ chain_events j.
Proof.
  revert q s. induction fuel as [|fuel IH]; intros q s Hev.
  - destruct q; by apply elem_of_nil in Hev.
  - destruct (forallb is_work q) eqn:Hwork.
    { rewrite drain_stop in Hev by done. by apply elem_of_nil in Hev. }
    destruct q as [|j0 q]; [done|].
    rewrite (drain_step _ _ _ _ Hwork) in Hev. cbn [fst snd] in Hev.
    apply elem_of_app in Hev as [Hev|Hev].
    + destruct (run_job_event_origin _ _ _ Hev) as [?|[?|Hc]]; [by left|by auto|].
      right; right. exists j0. split; [left|done].
    + destruct (IH _ _ Hev) as [?|[?|(j & Hj & Hc)]]; [by left|by auto|].
      right; right. apply elem_of_app in Hj as [Hj|Hj].
      * exists j. split; [by right|done].
      * exists j0. split; [left|].
        destruct (is_all_element j0) eqn:Hall.
        { rewrite (all_element_next _ Hall) in Hj. by apply elem_of_nil in Hj. }
        destruct (is_work j0) eqn:Hwj.
        { rewrite (chain_events_work _ (next_work _ _ Hwj Hj)) in Hc.
          by apply elem_of_nil in Hc. }
        rewrite (chain_events_step j0 s Hall Hwj). apply elem_of_app. right.
        apply list_elem_of_bind. by exists j.
Qed.

(** The events of a chain are about its own descriptor. *)
Lemma chain_events_index (j : job) (ev : event) :
  ev ∈ chain_events j ->
  match ev with
  | Invoke n | Registered n | Settled n _ => n = job_index j
  | ReturnedSettled _ _ | AllSettled _ => False
  | _ => True
  end.
Proof.
  assert (Hcatch : forall i e o, ev ∈ catch_events i e o ->
            match ev with
            | Invoke n | Registered n | Settled n _ => n = i
            | ReturnedSettled _ _ | AllSettled _ => False
            | _ => True
            end).
  { intros i e [|t]; simpl.
    - by intros ->%list_elem_of_singleton.
    - intros [Hev| ->%list_elem_of_singleton]%elem_of_app; [|done].
      destruct (stack_of t); [|by apply elem_of_nil in Hev].
      by apply list_elem_of_singleton in Hev as ->. }
  assert (Hsecond : forall i e o, ev ∈ second_events i e o ->
            match ev with
            | Invoke n | Registered n | Settled n _ => n = i
            | ReturnedSettled _ _ | AllSettled _ => False
            | _ => True
            end).
  { intros i e o [Hev|Hev]%elem_of_app; [|by eapply Hcatch].
    destruct o; [|by apply elem_of_nil in Hev].
    destruct (disabled e); by apply list_elem_of_singleton in Hev as ->. }
  destruct j as [i e|i e o|i e o|i e o|i e o|i o|i n w]; simpl;
    try (by apply Hsecond); try (by apply Hcatch);
    try (by intros ?%elem_of_nil).
  intros [Hev|Hev]%elem_of_app; [|by eapply Hsecond].
  destruct (is_callable _); [|by apply elem_of_nil in Hev].
  by apply list_elem_of_singleton in Hev as ->.
Qed.

(** The trace of [useMany] has every event of the chain of every
    descriptor that is not disabled. *)
Lemma useMany_chain_events (l : list Extension.t) (k : Kites) (i : nat)
  (e : Extension.t) (ev : event) :
  l !! i = Some e -> disabled (merged e k) = false ->
  ev ∈ chain_events (FirstThen i (merged e k)) ->
  ev ∈ act_trace (useMany l k).
Proof.
  intros Hi Hd Hev. rewrite useMany_unfold. cbn [act_trace].
  apply elem_of_app. right. apply elem_of_app. right.
  apply (drain_chain_events _ _ _ (FirstThen i (merged e k))); [done| |done].
  apply elem_of_app. left. by apply (chains_complete 0 i).
Qed.

(** And it has nothing else, the skips, the settlements of the promises the
    entry points returned and the settlement of [Promise.all] apart. *)
Lemma useMany_event_origin (l : list Extension.t) (k : Kites) (ev : event) :
  ev ∈ act_trace (useMany l k) ->
  (exists o, ev = AllSettled o) \/ (exists i o, ev = ReturnedSettled i o)
  \/ (exists i e, l !! i = Some e /\ disabled (merged e k) = true
                  /\ (ev = Log Debug (DisabledSkipping (Extension.name e))
                      \/ ev = Settled i Fulfilled))
  \/ (exists i e, l !! i = Some e /\ disabled (merged e k) = false
                  /\ ev ∈ chain_events (FirstThen i (merged e k))).
Proof.
  rewrite useMany_unfold. cbn [act_trace].
  intros [Hev|[Hev|Hev]%elem_of_app]%elem_of_app.
  - right; right; left. by apply (skip_events_spec 0).
  - left. destruct l; [|by apply elem_of_nil in Hev].
    apply list_elem_of_singleton in Hev as ->. by eexists.
  - destruct (drain_event_origin _ _ _ _ Hev) as [?|[?|(j & Hj & Hc)]];
      [by left|by auto|].
    apply elem_of_app in Hj as [Hj|Hj].
    + destruct (chains_spec _ _ _ _ Hj) as (n & e & Hn & Hd & ->).
      right; right; right. by exists n, e.
    + destruct (resolved_spec _ _ _ _ Hj) as (n & e & _ & _ & ->).
      by apply elem_of_nil in Hc.
Qed.

(** The merge of the options leaves the entry point as it was. *)
Lemma entry_of_merged (e : Extension.t) (k : Kites) :
  entry_of (merged e k) = entry_of e.
Proof. unfold merged. by rewrite useOne_descriptor. Qed.

Lemma errorMsg_after_entry (e : Extension.t) (k : Kites) (st : option string) :
  errorMsg (after_entry (merged e k)) st = errorMsg e st.
Proof.
  unfold after_entry. destruct (entry_of (merged e k));
    [apply errorMsg_merged|..]; unfold merged; by rewrite useOne_descriptor.
Qed.

Lemma rethrown_after_entry (e : Extension.t) (k : Kites) (t : thrown) :
  rethrown (after_entry (merged e k)) t = rethrown e t.
Proof.
  unfold rethrown. destruct (stack_of t); [|done].
  by rewrite errorMsg_after_entry.
Qed.


(** The one settlement a chain leaves. *)
Lemma chain_events_settled (i n : nat) (e : Extension.t)
  (o : settled rejection) :
  Settled n o ∈ chain_events (FirstThen i e) ->
  o = match failure e with
      | Some t => Rejected (rethrown (after_entry e) t)
      | None => Fulfilled
      end.
Proof.
  cbn [chain_events]. intros [Hev|[Hev|Hev]%elem_of_app]%elem_of_app.
  - destruct (is_callable _); [|by apply elem_of_nil in Hev].
    by apply list_elem_of_singleton in Hev.
  - destruct (failure e); [by apply elem_of_nil in Hev|].
    destruct (disabled _); by apply list_elem_of_singleton in Hev.
  - destruct (failure e) as [t|]; simpl in Hev.
    + apply elem_of_app in Hev as [Hev|Hev].
      * destruct (stack_of t); [|by apply elem_of_nil in Hev].
        by apply list_elem_of_singleton in Hev.
      * apply list_elem_of_singleton in Hev. by injection Hev as _ ->.
    + apply list_elem_of_singleton in Hev. by injection Hev as _ ->.
Qed.

(** The notification of a chain: the entry point has returned and the
    options do not have the extension disabled. *)
Lemma chain_events_registered (i n : nat) (e : Extension.t) :
  Registered n ∈ chain_events (FirstThen i e)
  <-> n = i /\ failure e = None /\ disabled (after_entry e) = false.
Proof.
  cbn [chain_events]. split.
  - intros [Hev|[Hev|Hev]%elem_of_app]%elem_of_app.
    + destruct (is_callable _); [|by apply elem_of_nil in Hev].
      by apply list_elem_of_singleton in Hev.
    + destruct (failure e); [by apply elem_of_nil in Hev|].
      destruct (disabled _); apply list_elem_of_singleton in Hev; [done|].
      by injection Hev as ->.
    + destruct (failure e) as [t|]; simpl in Hev.
      * apply elem_of_app in Hev as [Hev|Hev].
        -- destruct (stack_of t); [|by apply elem_of_nil in Hev].
           by apply list_elem_of_singleton in Hev.
        -- by apply list_elem_of_singleton in Hev.
      * by apply list_elem_of_singleton in Hev.
  - intros (-> & -> & Hd). apply elem_of_app. right. unfold second_events.
    rewrite Hd. apply elem_of_app. left. by apply list_elem_of_singleton.
Qed.

(** What a failed chain leaves: the settlement, and the message for the
    logger when the value thrown has a [stack] to read. *)
Lemma chain_events_failure (i : nat) (e : Extension.t) (t : thrown) :
  failure e = Some t ->
  Settled i (Rejected (rethrown (after_entry e) t))
    ∈ chain_events (FirstThen i e)
  /\ (forall st, stack_of t = Some st ->
        Log Error (Text (errorMsg (after_entry e) st))
          ∈ chain_events (FirstThen i e)).
Proof.
  intros Hf. cbn [chain_events]. rewrite Hf. split.
  - apply elem_of_app. right. apply elem_of_app. right.
    apply elem_of_app. right. by apply list_elem_of_singleton.
  - intros st Hst. apply elem_of_app. right. apply elem_of_app. right.
    apply elem_of_app. left. simpl. rewrite Hst.
    by apply list_elem_of_singleton.
Qed.

(** The events about a descriptor that is not disabled are those of its
    chain. *)
Lemma useMany_about (l : list Extension.t) (k : Kites) (i : nat)
  (e : Extension.t) (ev : event) :
  l !! i = Some e -> disabled (merged e k) = false ->
  about i ev = true ->
  ev ∈ act_trace (useMany l k) ->
  (exists o, ev = ReturnedSettled i o)
  \/ ev ∈ chain_events (FirstThen i (merged e k)).
Proof.
  intros Hi Hd Hab Hev.
  destruct (useMany_event_origin _ _ _ Hev)
    as [[o ->]|[(n & o & ->)|[(n & e' & Hn & Hd' & Hc)|(n & e' & Hn & Hd' & Hc)]]].
  - done.
  - left. simpl in Hab. apply Nat.eqb_eq in Hab as ->. by eexists.
  - exfalso. destruct Hc as [->| ->]; [done|]. simpl in Hab.
    apply Nat.eqb_eq in Hab as ->. congruence.
  - right. pose proof (chain_events_index _ _ Hc) as Hidx.
    assert (n = i) as ->.
    { destruct ev; simpl in Hab, Hidx; try done;
        apply Nat.eqb_eq in Hab; simpl in Hidx; congruence. }
    congruence.
Qed.

(** X1. The notification [extension:registered] is emitted for a descriptor
    exactly when it is not disabled, its entry point has been called and
    has returned, and its options do not have [enabled === false] once the
    entry point has set what it sets; what happens to the other descriptors
    of the list has no part in it. *)
Theorem registered_exactly_when_the_entry_point_returns
  (l : list Extension.t) (k : Kites) (i : nat) :
  Registered i ∈ act_trace (useMany l k)
  <-> exists e f v,
        l !! i = Some e
        /\ disabled (merged e k) = false
        /\ entry_of e = Callable f
        /\ fn_completion f = Returns v
        /\ is_false
             (get (assign_props (fn_sets f)
                     (default ∅ (Extension.options (merged e k)))) "enabled")
           = false.
Proof.
  split.
  - intros Hev.
    destruct (useMany_event_origin _ _ _ Hev)
      as [[o ?]|[(n & o & ?)|[(n & e & _ & _ & [?|?])|(n & e & Hn & Hd & Hc)]]];
      try discriminate.
    apply chain_events_registered in Hc as (-> & Hf & Ha).
    unfold failure, after_entry in Hf, Ha. rewrite entry_of_merged in Hf, Ha.
    destruct (entry_of e) as [f|t|] eqn:He; [|done|done].
    destruct (fn_completion f) as [v|t] eqn:Hc; [|done].
    exists e, f, v. repeat split; done.
  - intros (e & f & v & Hi & Hd & He & Hc & Hen).
    apply (useMany_chain_events _ _ i e); [done|done|].
    apply chain_events_registered. unfold failure, after_entry.
    rewrite entry_of_merged, He, Hc. done.
Qed.


(** X3. An entry point that throws is reported, whether or not it is the
    first to fail: the promise of its activation is rejected with the error
    built for it (a [TypeError] when the value thrown is [null] or
    [undefined]), the message goes to the logger when the value thrown has
    a [stack] to read, and no [extension:registered] is emitted. *)
Theorem every_throwing_entry_point_is_reported
  (l : list Extension.t) (k : Kites) (i : nat) (e : Extension.t)
  (f : jsfunction) (t : thrown) :
  l !! i = Some e ->
  disabled (merged e k) = false ->
  entry_of e = Callable f ->
  fn_completion f = Throws t ->
  Invoke i ∈ act_trace (useMany l k)
  /\ Settled i (Rejected (rethrown e t)) ∈ act_trace (useMany l k)
  /\ (forall st, stack_of t = Some st ->
                 Log Error (Text (errorMsg e st)) ∈ act_trace (useMany l k))
  /\ (Registered i ∉ act_trace (useMany l k))
  /\ (Settled i Fulfilled ∉ act_trace (useMany l k)).
Proof.
  intros Hi Hd He Hc.
  assert (Hf : failure (merged e k) = Some t).
  { unfold failure. by rewrite entry_of_merged, He, Hc. }
  destruct (chain_events_failure i _ _ Hf) as [Hs Hlog].
  rewrite rethrown_after_entry in Hs.
  split; [|split; [|split; [|split]]].
  - apply useMany_invoke_lookup. exists e. split; [done|].
    unfold activates. by rewrite Hd, entry_of_merged, He.
  - by apply (useMany_chain_events _ _ i e).
  - intros st Hst. apply (useMany_chain_events _ _ i e); [done|done|].
    rewrite <- (errorMsg_after_entry e k). by apply Hlog.
  - intros Hev.
    destruct (useMany_about l k i e (Registered i) Hi Hd (Nat.eqb_refl i) Hev)
      as [[o ?]|Hr]; [done|].
    apply chain_events_registered in Hr as (_ & Hr & _). congruence.
  - intros Hev.
    destruct (useMany_about l k i e (Settled i Fulfilled) Hi Hd (Nat.eqb_refl i) Hev)
      as [[o ?]|Hr]; [done|].
    apply chain_events_settled in Hr. by rewrite Hf in Hr.
Qed.

(** X4. A descriptor with nothing to call (no function for [main], no
    module to load, no function for [init]) has no entry point called; its
    activation is rejected, and the error says [undefined] where the stack
    would be: the callback rejects with a string, which has no [stack], so
    the text [Invalid kites extension] gets neither to the logger nor into
    the error. *)
Theorem descriptor_without_entry_point_is_rejected
  (l : list Extension.t) (k : Kites) (i : nat) (e : Extension.t)
  (n : string) :
  l !! i = Some e ->
  disabled (merged e k) = false ->
  entry_of e = Invalid ->
  Extension.name e = Some n -> n <> "" ->
  (Invoke i ∉ act_trace (useMany l k))
  /\ Log Error (Text ("Error when loading extension " +:+ n +:+ os_EOL
                      +:+ "undefined"))
     ∈ act_trace (useMany l k)
  /\ Settled i (Rejected (NewError ("Error when loading extension " +:+ n
                                    +:+ os_EOL +:+ "undefined")))
     ∈ act_trace (useMany l k)
  /\ act_result (useMany l k) <> Some Fulfilled.
Proof.
  intros Hi Hd He Hn Hne.
  assert (Hf : failure (merged e k)
               = Some (ThrownString ("Invalid kites extension: "
                                     +:+ render (Extension.name (merged e k))))).
  { unfold failure. by rewrite entry_of_merged, He. }
  assert (Hmsg : errorMsg e None
                 = "Error when loading extension " +:+ n +:+ os_EOL
                   +:+ "undefined").
  { unfold errorMsg. rewrite Hn. simpl.
    by destruct (String.eqb_spec n ""). }
  destruct (chain_events_failure i _ _ Hf) as [Hs Hlog].
  rewrite rethrown_after_entry in Hs. unfold rethrown in Hs. simpl in Hs.
  specialize (Hlog None eq_refl). rewrite errorMsg_after_entry in Hlog.
  rewrite Hmsg in Hs, Hlog.
  split; [|split; [|split]].
  - rewrite useMany_invoke_lookup. intros (e' & Hi' & Ha).
    assert (e' = e) as -> by congruence.
    unfold activates in Ha. by rewrite entry_of_merged, He, Hd in Ha.
  - by apply (useMany_chain_events _ _ i e).
  - by apply (useMany_chain_events _ _ i e).
  - intros Hres.
    pose proof (useMany_fulfilled l k i Hres (lookup_lt_Some _ _ _ Hi)) as Hev.
    destruct (useMany_about l k i e (Settled i Fulfilled) Hi Hd (Nat.eqb_refl i) Hev)
      as [[o ?]|Hc]; [done|].
    apply chain_events_settled in Hc. by rewrite Hf in Hc.
Qed.

(** X5. A descriptor whose [main] names a module, in a directory, is
    activated by loading the module; when loading raises, no entry point is
    called (the function for [init], if there is one, is not tried) and the
    activation is rejected with the error built for the descriptor. *)
Theorem module_that_fails_to_load_is_reported
  (l : list Extension.t) (k : Kites) (i : nat) (e : Extension.t)
  (d p : string) (t : thrown) (st : option string) :
  l !! i = Some e ->
  disabled (merged e k) = false ->
  Extension.main e = MainString p ->
  Extension.directory e = Some d -> d <> "" ->
  require (path_join d p) = inl t ->
  stack_of t = Some st ->
  (Invoke i ∉ act_trace (useMany l k))
  /\ Log Error (Text (errorMsg e st)) ∈ act_trace (useMany l k)
  /\ Settled i (Rejected (NewError (errorMsg e st))) ∈ act_trace (useMany l k).
Proof.
  intros Hi Hd Hmain Hdir Hne Hreq Hst.
  assert (He : entry_of e = LoadFails t).
  { unfold entry_of. rewrite Hmain, Hdir.
    destruct (String.eqb_spec d ""); [done|]. by rewrite Hreq. }
  assert (Hf : failure (merged e k) = Some t).
  { unfold failure. by rewrite entry_of_merged, He. }
  destruct (chain_events_failure i _ _ Hf) as [Hs Hlog].
  rewrite rethrown_after_entry in Hs. unfold rethrown in Hs. rewrite Hst in Hs.
  specialize (Hlog st Hst). rewrite errorMsg_after_entry in Hlog.
  split; [|split].
  - rewrite useMany_invoke_lookup. intros (e' & Hi' & Ha).
    assert (e' = e) as -> by congruence.
    unfold activates in Ha. by rewrite entry_of_merged, He, Hd in Ha.
  - by apply (useMany_chain_events _ _ i e).
  - by apply (useMany_chain_events _ _ i e).
Qed.



(** X7. The disabled descriptors are skipped in the synchronous part of
    [useMany]: when the first entry point is called, every disabled
    descriptor of the list, wherever it stands, has been logged as skipped
    and has its promise fulfilled. *)
Theorem skips_come_before_every_entry_point
  (l : list Extension.t) (k : Kites) (pre post : list event) (i n : nat)
  (e : Extension.t) :
  act_trace (useMany l k) = pre ++ Invoke i :: post ->
  l !! n = Some e ->
  disabled (merged e k) = true ->
  Log Debug (DisabledSkipping (Extension.name e)) ∈ pre
  /\ Settled n Fulfilled ∈ pre.
Proof.
  intros Htr Hn Hd. rewrite useMany_unfold in Htr. cbn [act_trace] in Htr.
  destruct (skip_events_disabled 0 l k n e Hn Hd) as [Hlog Hset].
  apply app_split_before in Htr as [mid ->].
  - split; apply elem_of_app; by left.
  - intros Hin.
    by destruct (skip_events_spec _ _ _ _ Hin) as (? & ? & _ & _ & [?|?]).
Qed.

End Chains.


(** ** Discovery and the candidates *)

Section Candidates.
Context `{Host}.
Import ExtensionsManager.

(** [init] leaves in [kites.options] what discovery has made of them. *)
Lemma init_options (k : Kites) (o : gmap string jsval) (ev : list event)
  (found : list Extension.t) :
  discovery k = Some (o, ev, found) -> options (state (init k)) = o.
Proof.
  intros Hd. unfold init, init_from. rewrite Hd.
  by destruct (selected o found k).
Qed.

(** X8. [init] is not idempotent on [options.discover]: on an instance
    with [discover: false] the first [init] scans nothing and leaves the
    array [[2, appDirectory]] in the option; a second [init] takes the [2]
    for the switch and scans, with the application directory for a depth
    and no directory to scan. *)
Theorem second_init_runs_discovery (k : Kites) :
  get (options k) "discover" = JBool false ->
  exists o d,
    discovery k = Some (o, [Log Debug AutodiscoverOff], [])
    /\ get (options (state (init k))) "discover"
       = JArr [JNum 2; get (options k) "appDirectory"]
    /\ discovery (state (init k))
       = Some (<["discover" := JArr []]> o,
               [Log Debug (Discovered (length (discover_extensions d)))],
               discover_extensions d)
    /\ depth d = get (options k) "appDirectory"
    /\ rootDirectory d = [].
Proof.
  intros Hdisc.
  assert (Hd : discovery k
               = Some (<["discover" := JArr [JNum 2;
                                             get (options k) "appDirectory"]]>
                         (<["discover" := JArr [JBool false; JNum 2;
                                                get (options k) "appDirectory"]]>
                            (options k)),
                       [Log Debug AutodiscoverOff], [])).
  { unfold discovery, normalized_discover. rewrite Hdisc, get_insert_eq.
    reflexivity. }
  eexists _, _. split; [exact Hd|].
  rewrite (init_options _ _ _ _ Hd), get_insert_eq. split; [reflexivity|].
  unfold discovery, normalized_discover.
  rewrite (init_options _ _ _ _ Hd), !get_insert_eq.
  cbn [shift truthy Z.eqb negb]. split; [reflexivity|]. split; reflexivity.
Qed.

(** X9. The path given to [kites.discover(path)] is not the one scanned:
    the method switches discovery on and stores the path in
    [options.rootDirectory], which [init] does not read; the directory
    scanned is [options.appDirectory], at depth 2. *)
Theorem discover_path_is_not_scanned (k : Kites) (s : string) :
  exists o d,
    discovery (KitesInstance.discover (DiscoverString s) k)
    = Some (o, [Log Debug (Discovered (length (discover_extensions d)))],
            discover_extensions d)
    /\ depth d = JNum 2
    /\ rootDirectory d = [get (options k) "appDirectory"]
    /\ get o "rootDirectory" = JStr s.
Proof.
  unfold KitesInstance.discover, discovery, normalized_discover.
  cbn [options with_kites_options].
  rewrite (get_insert_ne _ "rootDirectory" "discover") by done.
  rewrite get_insert_eq, get_insert_eq. cbn [shift truthy].
  eexists _, _. split; [reflexivity|]. cbn [depth rootDirectory].
  split; [reflexivity|]. split.
  - rewrite (get_insert_ne _ "rootDirectory" "appDirectory") by done.
    by rewrite (get_insert_ne _ "discover" "appDirectory") by done.
  - rewrite !(get_insert_ne _ "discover" "rootDirectory") by done.
    apply get_insert_eq.
Qed.

(** X10. A string for [options.discover] is the directory to scan, at depth
    2; but the string ['undefined'] switches discovery off. *)
Theorem discover_option_string (k : Kites) (s : string) :
  get (options k) "discover" = JStr s ->
  (s = "undefined" ->
   exists o, discovery k = Some (o, [Log Debug AutodiscoverOff], []))
  /\ (s <> "undefined" ->
      exists o d,
        discovery k
        = Some (o, [Log Debug (Discovered (length (discover_extensions d)))],
                discover_extensions d)
        /\ depth d = JNum 2
        /\ rootDirectory d = [JStr s]).
Proof.
  intros Hdisc. unfold discovery, normalized_discover. rewrite Hdisc. split.
  - intros ->. cbn [String.eqb Ascii.eqb Bool.eqb]. rewrite get_insert_eq.
    by eexists.
  - intros Hs. destruct (String.eqb_spec s "undefined"); [done|].
    rewrite get_insert_eq. cbn [shift truthy]. by eexists _, _.
Qed.

(** X11. When [options.discover] is neither a boolean, a string nor an
    array (it is [undefined], [null], a number or an object), there is no
    [shift] to call: [init] is rejected with a [TypeError] before anything
    is logged and before any entry point is called. *)
Theorem init_rejects_without_discover_option (k : Kites) (v : jsval) :
  get (options k) "discover" = v ->
  v = JUndefined \/ v = JNull \/ (exists z, v = JNum z) \/ (exists m, v = JObj m) ->
  promise (init k) = Some (Rejected TypeError)
  /\ trace (init k) = []
  /\ availableExtensions (state (init k)) = []
  /\ options (state (init k)) = options k.
Proof.
  intros Hv Hcases.
  assert (Hnorm : normalized_discover (options k) = options k).
  { unfold normalized_discover. rewrite Hv.
    by destruct Hcases as [->|[->|[[z ->]|[m ->]]]]. }
  assert (Hd : discovery k = None).
  { unfold discovery. rewrite Hnorm, Hv.
    by destruct Hcases as [->|[->|[[z ->]|[m ->]]]]. }
  unfold init. rewrite Hd, Hnorm. by destruct k.
Qed.

(** Sorting nothing gives nothing. *)
Lemma sort_extensions_nil : sort_extensions [] = [].
Proof. apply Permutation_nil_r, sort_extensions_perm. Qed.

(** X12. An empty allow-list is an allow-list: an empty array is truthy,
    so every candidate is dropped; no entry point is called and [init] is
    fulfilled with no extension available. *)
Theorem empty_allow_list_drops_every_candidate
  (k : Kites) (o : gmap string jsval) (ev : list event)
  (found : list Extension.t) :
  get (options k) "extensions" = JArr [] ->
  discovery k = Some (o, ev, found) ->
  availableExtensions (state (init k)) = []
  /\ promise (init k) = Some Fulfilled
  /\ trace (init k) = ev ++ [AllSettled Fulfilled].
Proof.
  intros Hnames Hd.
  assert (Hsel : selected o found k = Ok []).
  { rewrite (selected_allow_list _ _ _ _ _ Hnames Hd). f_equal.
    induction (found ++ usedExtensions k) as [|e l IH]; [done|]. exact IH. }
  rewrite (init_unfold _ _ _ _ _ Hd Hsel), sort_extensions_nil.
  by cbn.
Qed.


(** X14. A bare function given to [use] is called by the next [init]:
    without an allow-list, and unless the configuration disables it under
    its name, the descriptor it was wrapped into is among the available
    extensions after [init], and its entry point, the function, has been
    called. *)
Theorem function_given_to_use_is_called_by_init
  (k k' : Kites) (f : jsfunction) (d : Extension.t)
  (o : gmap string jsval) (ev : list event) (found : list Extension.t) :
  k' = KitesInstance.use (UseFunction f) k ->
  usedExtensions k' = usedExtensions k ++ [d] ->
  truthy (get (options k) "extensions") = false ->
  discovery k = Some (o, ev, found) ->
  disabled (merged d (with_kites_options o k')) = false ->
  exists i e,
    availableExtensions (state (init k')) !! i = Some e
    /\ Extension.main e = MainFunction f
    /\ Invoke i ∈ trace (init k').
Proof.
  intros -> Hused Hfalsy Hd Hdis.
  set (k' := KitesInstance.use (UseFunction f) k) in *.
  assert (Hd' : discovery k' = Some (o, ev, found)) by exact Hd.
  assert (Hsel : selected o found k' = Ok (found ++ usedExtensions k')).
  { unfold selected.
    by rewrite (discovery_options _ _ _ _ "extensions" Hd), Hfalsy. }
  assert (Hmain : Extension.main d = MainFunction f).
  { unfold k' in Hused. cbn in Hused.
    apply app_inv_head in Hused. by injection Hused as <-. }
  assert (Hin : d ∈ sort_extensions (found ++ usedExtensions k')).
  { rewrite sort_extensions_perm, Hused.
    apply elem_of_app. right. apply elem_of_app. right. left. }
  apply list_elem_of_lookup_1 in Hin as [i Hi].
  exists i, (merged d (with_kites_options o k')).
  rewrite (init_unfold _ _ _ _ _ Hd' Hsel). cbn [state trace].
  unfold with_listeners, with_available. cbn [availableExtensions].
  rewrite useMany_unfold. cbn [act_extensions]. rewrite <- useMany_unfold.
  assert (Hmain' : Extension.main (merged d (with_kites_options o k'))
                   = MainFunction f).
  { unfold merged. by rewrite useOne_descriptor. }
  split; [by rewrite list_lookup_fmap, Hi|]. split; [done|].
  apply elem_of_app. right. apply useMany_invoke_lookup. exists d.
  split; [done|]. unfold activates, entry_of. by rewrite Hdis, Hmain'.
Qed.

End Candidates.

(** ** Setting options *)

Section Settings.
Context `{Host}.
Import ExtensionsManager.

(** X15. [set('a:b', value)] on an instance whose option [a] is an object
    stores the value under [b] in this object, and changes neither the
    other properties of the object, nor the other options, nor anything
    else of the instance. *)
Theorem set_namespaced_option
  (k : Kites) (option value t0 t1 : string) (ns : gmap string jsval) :
  split ":" option = [t0; t1] ->
  get (options k) t0 = JObj ns ->
  exists k',
    KitesInstance.set option value k = Ok k'
    /\ prop (get (options k') t0) t1 = JStr value
    /\ (forall key, key <> t1 ->
                   prop (get (options k') t0) key
                   = prop (get (options k) t0) key)
    /\ (forall key, key <> t0 -> get (options k') key = get (options k) key)
    /\ k' = with_kites_options (options k') k.
Proof.
  intros Hsplit Hns. unfold KitesInstance.set. rewrite Hsplit, Hns.
  cbn [put_prop]. eexists. split; [reflexivity|].
  cbn [options with_kites_options]. rewrite get_insert_eq. cbn [prop].
  split; [apply get_insert_eq|]. split; [|split; [|reflexivity]].
  - intros key Hkey. apply get_insert_ne. congruence.
  - intros key Hkey. apply get_insert_ne. congruence.
Qed.



End Settings.

(** ** Startup, when it fails and when it loads the configuration *)

Section StartupMore.
Context `{Host}.
Import ExtensionsManager.

Lemma chain_events_from_manager (j : job) (ev : event) :
  ev ∈ chain_events j -> from_manager ev = true.
Proof.
  assert (Hcatch : forall i e o, ev ∈ catch_events i e o ->
                                 from_manager ev = true).
  { intros i e [|t]; simpl.
    - by intros ->%list_elem_of_singleton.
    - intros [Hev| ->%list_elem_of_singleton]%elem_of_app; [|done].
      destruct (stack_of t); [|by apply elem_of_nil in Hev].
      by apply list_elem_of_singleton in Hev as ->. }
  assert (Hsecond : forall i e o, ev ∈ second_events i e o ->
                                  from_manager ev = true).
  { intros i e o [Hev|Hev]%elem_of_app; [|by eapply Hcatch].
    destruct o; [|by apply elem_of_nil in Hev].
    destruct (disabled e); by apply list_elem_of_singleton in Hev as ->. }
  destruct j as [i e|i e o|i e o|i e o|i e o|i o|i n w]; simpl;
    try (by apply Hsecond); try (by apply Hcatch);
    try (by intros ?%elem_of_nil).
  intros [Hev|Hev]%elem_of_app; [|by eapply Hsecond].
  destruct (is_callable _); [|by apply elem_of_nil in Hev].
  by apply list_elem_of_singleton in Hev as ->.
Qed.

(** The extensions manager leaves none of the events of the startup of the
    instance. *)
Lemma manager_init_events (k : Kites) (ev : event) :
  ev ∈ trace (init k) -> from_manager ev = true.
Proof.
  unfold init, init_from.
  destruct (discovery k) as [[[o ev0] found]|] eqn:Hd;
    [|by intros ?%elem_of_nil].
  destruct (discovery_events _ _ _ _ Hd) as [m ->].
  destruct (selected o found k) as [l|r]; cbn [trace].
  - intros [->%list_elem_of_singleton|Hev]%elem_of_app; [done|].
    destruct (useMany_event_origin _ _ _ Hev)
      as [[? ->]|[(? & ? & ->)|[(n & e & _ & _ & [->| ->])|(n & e & _ & _ & Hc)]]];
      try done.
    by apply chain_events_from_manager in Hc.
  - by intros ->%list_elem_of_singleton.
Qed.


Lemma fire_events (listeners : list initializer) (ev : event) :
  ev ∈ (KitesInstance.fire listeners).1 -> exists label, ev = Fired label.
Proof.
  induction listeners as [|l rest IH]; simpl; [by intros ?%elem_of_nil|].
  destruct (li_result l).
  - destruct (KitesInstance.fire rest) as [evs o]. simpl in *.
    intros [->|Hev]%elem_of_cons; [by eexists|by apply IH].
  - simpl. intros ->%list_elem_of_singleton. by eexists.
Qed.


(** X19. Without [options.configFile], loading the configuration never
    fails for want of a file: the file named after the environment is read
    when it exists in the application directory, [kites.config.json] only
    when the first does not exist, and no file at all when neither does;
    in this last case [options.configFile] has been set to the name of the
    first all the same. *)
Theorem default_configuration_file_is_optional (k : Kites) (dir : string) :
  truthy (get (options k) "configFile") = false ->
  KitesInstance.appDirectory k = JStr dir ->
  (KitesInstance._loadConfig k).2 = None
  /\ (fs_existsSync (path_join dir (KitesInstance.configFileName k)) = true ->
      options (KitesInstance._loadConfig k).1
      = nconf_get
          (<["configFile" := JStr (KitesInstance.configFileName k)]> (options k))
          (Some (path_join dir (KitesInstance.configFileName k))))
  /\ (fs_existsSync (path_join dir (KitesInstance.configFileName k)) = false ->
      fs_existsSync (path_join dir KitesInstance.defaultConfigFile) = true ->
      options (KitesInstance._loadConfig k).1
      = nconf_get
          (<["configFile" := JStr KitesInstance.defaultConfigFile]>
             (<["configFile" := JStr (KitesInstance.configFileName k)]>
                (options k)))
          (Some (path_join dir KitesInstance.defaultConfigFile)))
  /\ (fs_existsSync (path_join dir (KitesInstance.configFileName k)) = false ->
      fs_existsSync (path_join dir KitesInstance.defaultConfigFile) = false ->
      options (KitesInstance._loadConfig k).1
      = nconf_get
          (<["configFile" := JStr (KitesInstance.configFileName k)]> (options k))
          None).
Proof.
  intros Hfalsy Hdir.
  assert (Hdir' : KitesInstance.appDirectory
                    (with_kites_options
                       (<["configFile" := JStr (KitesInstance.configFileName k)]>
                          (options k)) k)
                  = JStr dir).
  { rewrite <- Hdir. unfold KitesInstance.appDirectory.
    cbn [options with_kites_options].
    by rewrite (get_insert_ne _ "configFile" "appDirectory"). }
  unfold KitesInstance._loadConfig. rewrite Hfalsy. cbn [negb].
  rewrite Hdir'.
  destruct (fs_existsSync (path_join dir (KitesInstance.configFileName k)));
    [by repeat split|].
  destruct (fs_existsSync (path_join dir KitesInstance.defaultConfigFile));
    by repeat split.
Qed.

(** X20. The callback given to [afterConfigLoaded] is called exactly when
    [options.loadConfig] is truthy and the configuration has loaded; it is
    then the first thing [init] does after loading, once. *)
Theorem afterConfigLoaded_is_called_once_the_configuration_is_loaded
  (k : Kites) :
  (AfterConfigLoaded ∈ trace (KitesInstance.init k)
   <-> truthy (get (options k) "loadConfig") = true
       /\ (KitesInstance._loadConfig k).2 = None)
  /\ (AfterConfigLoaded ∈ trace (KitesInstance.init k) ->
      exists rest, trace (KitesInstance.init k) = AfterConfigLoaded :: rest
                   /\ AfterConfigLoaded ∉ rest).
Proof.
  assert (Hshape : exists rest,
            trace (KitesInstance.init k)
            = (KitesInstance._initOptions k).1.1 ++ rest
            /\ AfterConfigLoaded ∉ rest).
  { unfold KitesInstance.init.
    destruct (KitesInstance._initOptions k) as [[ev0 k0] [r0|]];
      cbn [fst snd].
    { exists []. cbn [trace]. rewrite app_nil_r. split; [done|].
      apply not_elem_of_nil. }
    set (k1 := if truthy (get (options k0) "logger")
                  && is_true (prop (get (options k0) "logger") "silent")
               then KitesInstance._silentLogs k0 else k0).
    pose proof (manager_init_events k1 AfterConfigLoaded) as Hman.
    destruct (promise (init k1)) as [[|r1]|].
    - pose proof (fire_events (initializeListeners (state (init k1)))
                    AfterConfigLoaded) as Hfire.
      destruct (KitesInstance.fire _) as [ev2 [|r2]]; cbn [trace fst] in *.
      + eexists. split; [reflexivity|]. rewrite !elem_of_app.
        intros [Hin|[Hin|[Hin|[Hin|Hin]]]].
        * by apply list_elem_of_singleton in Hin.
        * by apply Hman in Hin.
        * by destruct (Hfire Hin).
        * apply elem_of_cons in Hin as [?|Hin]; [done|].
          by apply list_elem_of_singleton in Hin.
        * unfold KitesInstance.run_ready in Hin.
          by apply list_elem_of_fmap in Hin as (? & ? & _).
      + eexists. split; [reflexivity|]. rewrite !elem_of_app.
        intros [Hin|[Hin|Hin]].
        * by apply list_elem_of_singleton in Hin.
        * by apply Hman in Hin.
        * by destruct (Hfire Hin).
    - eexists. split; [reflexivity|]. rewrite !elem_of_app.
      intros [Hin|Hin]; [by apply list_elem_of_singleton in Hin|].
      by apply Hman in Hin.
    - eexists. split; [reflexivity|]. rewrite !elem_of_app.
      intros [Hin|Hin]; [by apply list_elem_of_singleton in Hin|].
      by apply Hman in Hin. }
  destruct Hshape as (rest & Htr & Hrest).
  assert (Hev0 : (KitesInstance._initOptions k).1.1
                 = if truthy (get (options k) "loadConfig")
                   then if (KitesInstance._loadConfig k).2 is None
                        then [AfterConfigLoaded] else []
                   else []).
  { unfold KitesInstance._initOptions.
    destruct (truthy (get (options k) "loadConfig")); [|done].
    by destruct (KitesInstance._loadConfig k) as [k1 [r|]]. }
  rewrite Htr, Hev0.
  destruct (truthy (get (options k) "loadConfig"));
    [destruct ((KitesInstance._loadConfig k).2) as [r|]|]; cbn [app].
  - split; [|done]. split; [done|by intros [_ ?]].
  - split; [split; [done|intros _; left]|].
    intros _. by exists rest.
  - split; [|done]. split; [done|by intros [? _]].
Qed.

(** X21. A disabled extension stays among the available ones after
    [init], at its place in the sorted list, but [extensions] does not
    show it. *)
Theorem disabled_extension_is_available_but_not_shown
  (k : Kites) (o : gmap string jsval) (ev : list event)
  (found l : list Extension.t) (i : nat) (e : Extension.t) :
  discovery k = Some (o, ev, found) ->
  selected o found k = Ok l ->
  sort_extensions l !! i = Some e ->
  disabled (merged e (with_kites_options o k)) = true ->
  availableExtensions (state (init k)) !! i
  = Some (merged e (with_kites_options o k))
  /\ (merged e (with_kites_options o k) ∉ extensions (state (init k))).
Proof.
  intros Hd Hsel Hi Hdis.
  rewrite (init_unfold _ _ _ _ _ Hd Hsel). unfold extensions. cbn [state].
  unfold with_listeners, with_available. cbn [availableExtensions].
  rewrite useMany_unfold. cbn [act_extensions]. split.
  - by rewrite list_lookup_fmap, Hi.
  - rewrite list_elem_of_In, filter_In. intros [_ Hen].
    unfold disabled in Hdis.
    destruct (Extension.options (merged e (with_kites_options o k))) as [m|];
      simpl in Hdis; [by rewrite Hdis in Hen|done].
Qed.

End StartupMore.

(** ** The logger *)

(** X22. [createLogger] leaves the logger of the given name with one
    transport, the debug transport built from the options of this call,
    whatever transports it had; it attaches the listener of ['error'] when
    it creates the logger and never again; it touches no other logger. So
    of two calls for the same name the last one wins. *)
Theorem createLogger_leaves_one_debug_transport
  (loggers : gmap string Logger.logger) (name : string) (o1 o2 : jsval) :
  (exists l,
     Logger.createLogger name o2 loggers !! name = Some l
     /\ Logger.transports l = [Logger.DebugTransport o2 name]
     /\ Logger.error_listeners l
        = match loggers !! name with
          | Some old => Logger.error_listeners old
          | None => 1%nat
          end)
  /\ (forall other, other <> name ->
                   Logger.createLogger name o2 loggers !! other
                   = loggers !! other)
  /\ Logger.createLogger name o2 (Logger.createLogger name o1 loggers)
     = Logger.createLogger name o2 loggers.
Proof.
  split; [|split].
  - unfold Logger.createLogger.
    destruct (loggers !! name) as [old|]; eexists;
      (split; [apply lookup_insert_eq|by split]).
  - intros other Hother. unfold Logger.createLogger.
    destruct (loggers !! name); by rewrite lookup_insert_ne.
  - unfold Logger.createLogger at 1 3.
    assert (Hin : Logger.createLogger name o1 loggers !! name
                  = Some {| Logger.transports := [Logger.DebugTransport o1 name];
                            Logger.error_listeners :=
                              match loggers !! name with
                              | Some old => Logger.error_listeners old
                              | None => 1%nat
                              end |}).
    { unfold Logger.createLogger.
      destruct (loggers !! name); apply lookup_insert_eq. }
    rewrite Hin. unfold Logger.createLogger.
    destruct (loggers !! name); by rewrite insert_insert_eq.
Qed.

(** ** The options merge, once more *)

Section Merge.
Context `{Host}.
Import ExtensionsManager.

(** X23. The merge of [useOne] is idempotent: a descriptor that went
    through it comes out of a second pass, with the same configuration, as
    it went in. A second [init] therefore merges nothing new into the
    descriptors of the first. *)
Theorem useOne_merge_is_idempotent (i j : nat) (e : Extension.t) (k : Kites) :
  (useOne j (useOne i e k).1.1 k).1.1 = (useOne i e k).1.1.
Proof.
  rewrite !useOne_descriptor.
  cbn [Extension.name Extension.options Extension.with_options].
  unfold Extension.with_options. cbn. f_equal. f_equal. unfold assign.
  change (default ∅ (Some ?m)) with m.
  by rewrite (assoc (∪)), (idemp (∪)).
Qed.


End Merge.
(** ** The examples, run *)

(** The scenario of two extensions, the second depending on the first:
    both entry points are called before either activation has settled. *)
Lemma second_entry_point_called_before_first_settles :
  trace (ExtensionsManager.init (engine ∅ [logging; router]))
  = [Log Debug AutodiscoverOff; Invoke 0]
    ++ Invoke 1
       :: [ReturnedSettled 0 Fulfilled; Registered 0; Registered 1;
           Settled 0 Fulfilled; Settled 1 Fulfilled; AllSettled Fulfilled]
  /\ existsb (is_settled 0) [Log Debug AutodiscoverOff; Invoke 0] = false.
Proof. split; reflexivity. Qed.



(** The promise returned by the entry point of [flaky] is rejected: the
    activation of [flaky] is fulfilled all the same, and so is [init]. *)
Example returned_promise_is_not_awaited :
  trace (ExtensionsManager.init (engine ∅ [flaky; router]))
  = [Log Debug AutodiscoverOff; Invoke 0; Invoke 1;
     ReturnedSettled 0 (Rejected (ThrownError "late" "Error: late"));
     Registered 0; Registered 1; Settled 0 Fulfilled; Settled 1 Fulfilled;
     AllSettled Fulfilled]
  /\ promise (KitesInstance.init (engine ∅ [flaky; router])) = Some Fulfilled.
Proof. split; reflexivity. Qed.

(** A disabled extension: no notification is emitted for it. *)
Lemma no_notification_for_a_disabled_extension :
  ExtensionsManager.disabled (ExtensionsManager.merged metrics (engine ∅ []))
  = true
  /\ trace (ExtensionsManager.init (engine ∅ [metrics]))
     = [Log Debug AutodiscoverOff;
        Log Debug (DisabledSkipping (Some "metrics"));
        Settled 0 Fulfilled; AllSettled Fulfilled]
  /\ existsb (is_registered 0)
       (trace (ExtensionsManager.init (engine ∅ [metrics]))) = false.
Proof. repeat split; reflexivity. Qed.

Lemma disabled_extension_is_skipped_silently_witness :
  Settled 1 Fulfilled
  ∈ ExtensionsManager.act_trace
      (ExtensionsManager.useMany [logging; metrics] (engine ∅ []))
  /\ Log Debug (DisabledSkipping (Some "metrics"))
     ∈ ExtensionsManager.act_trace
         (ExtensionsManager.useMany [logging; metrics] (engine ∅ [])).
Proof.
  destruct (disabled_extension_is_skipped_silently
              [logging; metrics] (engine ∅ []) 1 metrics)
    as (_ & _ & _ & Hs & Hl); [reflexivity|reflexivity|].
  split; [exact Hs|exact Hl].
Defined.


Example allow_list_run :
  invoked
    (trace (KitesInstance.init
              (engine {[ "extensions" := JArr [JStr "logging"; JStr "router"] ]}
                 [logging; broken; router])))
  = [0; 1]%nat
  /\ promise
       (KitesInstance.init
          (engine {[ "extensions" := JArr [JStr "logging"; JStr "router"] ]}
             [logging; broken; router]))
     = Some Fulfilled.
Proof. split; reflexivity. Qed.

(** The listeners of [initialized] run while [isInitialized] is false. *)
Lemma initialized_is_emitted_with_the_flag_unset :
  promise (KitesInstance.init (engine ∅ [logging; router])) = Some Fulfilled
  /\ trace (KitesInstance.init (KitesInstance.ready "main"
                                  (engine ∅ [logging; router])))
     = [Log Info (Initializing (JStr "development") None);
        Log Debug AutodiscoverOff; Invoke 0; Invoke 1;
        ReturnedSettled 0 Fulfilled; Registered 0; Registered 1;
        Settled 0 Fulfilled; Settled 1 Fulfilled; AllSettled Fulfilled;
        Log Info KitesInitialized; EmitInitialized false;
        ReadyCallback "main" true].
Proof. split; reflexivity. Qed.

Lemma init_emits_initialized_before_setting_the_flag_witness :
  exists before,
    trace (KitesInstance.init (KitesInstance.ready "main"
                                 (engine ∅ [logging; router])))
    = before ++ [Log Info KitesInitialized; EmitInitialized false]
      ++ [ReadyCallback "main" true]
    /\ Settled 1 Fulfilled ∈ before.
Proof.
  destruct (init_emits_initialized_before_setting_the_flag
              (KitesInstance.ready "main" (engine ∅ [logging; router])))
    as (before & Htr & _ & Hs & _); [reflexivity|reflexivity|].
  exists before. split; [exact Htr|]. apply Hs. vm_compute. lia.
Defined.

(** A configuration file that does not exist is named in the options, but
    loading is not enabled: [init] succeeds and the entry point is called. *)
Lemma missing_config_file_is_not_looked_for :
  KitesInstance.configFilePath "missing.json"
    (engine {[ "configFile" := JStr "missing.json" ]} [logging])
  = Ok "/app/missing.json"
  /\ fs_existsSync "/app/missing.json" = false
  /\ promise (KitesInstance.init
                (engine {[ "configFile" := JStr "missing.json" ]} [logging]))
     = Some Fulfilled
  /\ invoked (trace (KitesInstance.init
                       (engine {[ "configFile" := JStr "missing.json" ]}
                          [logging])))
     = [0%nat].
Proof. repeat split; reflexivity. Qed.

Lemma missing_config_file_is_fatal_when_loading_witness :
  promise (KitesInstance.init
             (engine {[ "loadConfig" := JBool true;
                     "configFile" := JStr "missing.json" ]} [logging]))
  = Some (Rejected (NewError "Config file missing.json was not found."))
  /\ trace (KitesInstance.init
              (engine {[ "loadConfig" := JBool true;
                      "configFile" := JStr "missing.json" ]} [logging]))
     = [].
Proof.
  destruct (missing_config_file_is_fatal_when_loading
              (engine {[ "loadConfig" := JBool true;
                      "configFile" := JStr "missing.json" ]} [logging])
              "missing.json" "/app/missing.json")
    as (Hp & _ & Ht & _);
    [reflexivity|reflexivity|discriminate|reflexivity|reflexivity|].
  split; [exact Hp|exact Ht].
Defined.

(** The scenario of the end: discovery off, [logging] and [router]
    registered, activation in this order, one notification each. *)
Example end_to_end :
  trace (KitesInstance.init (engine ∅ [router; logging]))
  = [Log Info (Initializing (JStr "development") None);
     Log Debug AutodiscoverOff; Invoke 0; Invoke 1;
     ReturnedSettled 0 Fulfilled; Registered 0; Registered 1;
     Settled 0 Fulfilled; Settled 1 Fulfilled; AllSettled Fulfilled;
     Log Info KitesInitialized; EmitInitialized false]
  /\ Extension.name
       <$> availableExtensions
             (state (KitesInstance.init (engine ∅ [router; logging])))
     = [Some "logging"; Some "router"].
Proof. split; reflexivity. Qed.

(** ** More examples, run *)

(** A descriptor with nothing to call, and one whose [main] names a module
    that the disk does not have (and that has a function for [init]). *)
Definition ghost : Extension.t :=
  {| Extension.name := Some "ghost";
     Extension.dependencies := [];
     Extension.directory := None;
     Extension.main := MainOther;
     Extension.init := None;
     Extension.options := None |}.

Definition plugin : Extension.t :=
  {| Extension.name := Some "plugin";
     Extension.dependencies := [];
     Extension.directory := Some "/app/plugins";
     Extension.main := MainString "index.js";
     Extension.init := Some (simple_function "init" (Returns Plain));
     Extension.options := None |}.

(** The options [init] works with on [engine(opts).use(...)], discovery
    being off by default. *)
Definition after_discovery (k : Kites) : gmap string jsval :=
  <["discover" := JArr [JNum 2; JStr "/app"]]>
    (ExtensionsManager.normalized_discover (options k)).

(** Of two entry points that throw, the second is reported as well. *)
Lemma every_throwing_entry_point_is_reported_witness :
  Settled 1 (Rejected (NewError ("Error when loading extension broken"
                                 +:+ LF +:+ "Error: boom")))
  ∈ ExtensionsManager.act_trace
      (ExtensionsManager.useMany [broken; broken] (engine ∅ []))
  /\ Log Error (Text ("Error when loading extension broken"
                      +:+ LF +:+ "Error: boom"))
     ∈ ExtensionsManager.act_trace
         (ExtensionsManager.useMany [broken; broken] (engine ∅ [])).
Proof.
  destruct (every_throwing_entry_point_is_reported
              [broken; broken] (engine ∅ []) 1 broken
              (simple_function "broken"
                 (Throws (ThrownError "boom" "Error: boom")))
              (ThrownError "boom" "Error: boom"))
    as (_ & Hs & Hlog & _); [reflexivity|reflexivity|reflexivity|reflexivity|].
  split; [exact Hs|]. apply (Hlog (Some "Error: boom")). reflexivity.
Defined.

Lemma descriptor_without_entry_point_is_rejected_witness :
  Settled 1 (Rejected (NewError ("Error when loading extension ghost"
                                 +:+ LF +:+ "undefined")))
  ∈ ExtensionsManager.act_trace
      (ExtensionsManager.useMany [logging; ghost] (engine ∅ [])).
Proof.
  destruct (descriptor_without_entry_point_is_rejected
              [logging; ghost] (engine ∅ []) 1 ghost "ghost")
    as (_ & _ & Hs & _);
    [reflexivity|reflexivity|reflexivity|reflexivity|discriminate|].
  exact Hs.
Defined.

Lemma module_that_fails_to_load_is_reported_witness :
  Settled 0 (Rejected (NewError ("Error when loading extension plugin"
                                 +:+ LF)))
  ∈ ExtensionsManager.act_trace
      (ExtensionsManager.useMany [plugin] (engine ∅ [])).
Proof.
  destruct (module_that_fails_to_load_is_reported
              [plugin] (engine ∅ []) 0 plugin "/app/plugins" "index.js"
              (ThrownError "Cannot find module /app/plugins/index.js" "")
              (Some ""))
    as (_ & _ & Hs);
    [reflexivity|reflexivity|reflexivity|reflexivity|discriminate
    |reflexivity|reflexivity|].
  exact Hs.
Defined.

Lemma second_init_runs_discovery_witness :
  exists o d,
    ExtensionsManager.discovery
      (state (ExtensionsManager.init (engine ∅ [])))
    = Some (o, [Log Debug (Discovered (length (discover_extensions d)))],
            discover_extensions d)
    /\ depth d = JStr "/app"
    /\ rootDirectory d = [].
Proof.
  destruct (second_init_runs_discovery (engine ∅ []))
    as (o & d & _ & _ & Hd & Hdepth & Hroot); [reflexivity|].
  exists (<["discover" := JArr []]> o), d.
  split; [exact Hd|]. split; [exact Hdepth|exact Hroot].
Defined.

Lemma discover_option_string_witness :
  (exists o,
     ExtensionsManager.discovery
       (KitesInstance.new {[ "discover" := JStr "undefined" ]})
     = Some (o, [Log Debug AutodiscoverOff], []))
  /\ (exists o d,
        ExtensionsManager.discovery
          (KitesInstance.new {[ "discover" := JStr "/plugins" ]})
        = Some (o, [Log Debug (Discovered (length (discover_extensions d)))],
                discover_extensions d)
        /\ rootDirectory d = [JStr "/plugins"]).
Proof.
  split.
  - destruct (discover_option_string
                (KitesInstance.new {[ "discover" := JStr "undefined" ]})
                "undefined") as [Hoff _]; [reflexivity|].
    apply Hoff. reflexivity.
  - destruct (discover_option_string
                (KitesInstance.new {[ "discover" := JStr "/plugins" ]})
                "/plugins") as [_ Hpath]; [reflexivity|].
    destruct Hpath as (o & d & Hd & _ & Hroot); [discriminate|].
    exists o, d. split; [exact Hd|exact Hroot].
Defined.

(** [engine({discover: undefined})]: the option given overrides the
    default, and [init] is rejected. *)
Lemma init_rejects_without_discover_option_witness :
  promise (ExtensionsManager.init
             (foldl (fun k e => KitesInstance.use (UseDescriptor e) k)
                (KitesInstance.new {[ "discover" := JUndefined ]})
                [logging]))
  = Some (Rejected TypeError)
  /\ trace (ExtensionsManager.init
              (foldl (fun k e => KitesInstance.use (UseDescriptor e) k)
                 (KitesInstance.new {[ "discover" := JUndefined ]})
                 [logging]))
     = [].
Proof.
  destruct (init_rejects_without_discover_option
              (foldl (fun k e => KitesInstance.use (UseDescriptor e) k)
                 (KitesInstance.new {[ "discover" := JUndefined ]})
                 [logging])
              JUndefined)
    as (Hp & Ht & _); [reflexivity|by left|].
  split; [exact Hp|exact Ht].
Defined.

Lemma empty_allow_list_drops_every_candidate_witness :
  availableExtensions
    (state (ExtensionsManager.init
              (engine {[ "extensions" := JArr [] ]} [logging; router])))
  = []
  /\ promise (ExtensionsManager.init
                (engine {[ "extensions" := JArr [] ]} [logging; router]))
     = Some Fulfilled.
Proof.
  destruct (empty_allow_list_drops_every_candidate
              (engine {[ "extensions" := JArr [] ]} [logging; router])
              (after_discovery
                 (engine {[ "extensions" := JArr [] ]} [logging; router]))
              [Log Debug AutodiscoverOff] [])
    as (Ha & Hp & _); [reflexivity|reflexivity|].
  split; [exact Ha|exact Hp].
Defined.


Lemma set_namespaced_option_witness :
  exists k',
    KitesInstance.set "logger:silent" "yes" (KitesInstance.new ∅) = Ok k'
    /\ prop (get (options k') "logger") "silent" = JStr "yes"
    /\ prop (get (options k') "logger") "console"
       = JObj {[ "level" := JStr "debug"; "transport" := JStr "console" ]}.
Proof.
  destruct (set_namespaced_option (KitesInstance.new ∅)
              "logger:silent" "yes" "logger" "silent"
              {[ "console" := JObj {[ "level" := JStr "debug";
                                      "transport" := JStr "console" ]} ]})
    as (k' & Hset & Hget & Hframe & _); [reflexivity|reflexivity|].
  exists k'. split; [exact Hset|]. split; [exact Hget|].
  rewrite (Hframe "console"); [reflexivity|discriminate].
Defined.




(** No configuration file on the disk: nothing is read, and
    [options.configFile] names the file of the environment. *)
Lemma default_configuration_file_is_optional_witness :
  (KitesInstance._loadConfig
     (KitesInstance.new {[ "loadConfig" := JBool true ]})).2 = None
  /\ get (options
            (KitesInstance._loadConfig
               (KitesInstance.new {[ "loadConfig" := JBool true ]})).1)
       "configFile"
     = JStr "dev.config.json".
Proof.
  destruct (default_configuration_file_is_optional
              (KitesInstance.new {[ "loadConfig" := JBool true ]}) "/app")
    as (Hok & _ & _ & Hnone); [reflexivity|reflexivity|].
  split; [exact Hok|]. rewrite Hnone; reflexivity.
Defined.

Lemma disabled_extension_is_available_but_not_shown_witness :
  Extension.name
    <$> availableExtensions
          (state (ExtensionsManager.init (engine ∅ [logging; metrics]))) !! 1%nat
  = Some (Some "metrics").
Proof.
  destruct (disabled_extension_is_available_but_not_shown
              (engine ∅ [logging; metrics])
              (after_discovery (engine ∅ [logging; metrics]))
              [Log Debug AutodiscoverOff] [] [logging; metrics] 1 metrics)
    as (Ha & _); [reflexivity|reflexivity|reflexivity|reflexivity|].
  rewrite Ha. reflexivity.
Defined.


(** [metrics] comes after [logging] in the list and is skipped before the
    entry point of [logging] is called. *)
Lemma skips_come_before_every_entry_point_witness :
  Log Debug (DisabledSkipping (Some "metrics"))
  ∈ [Log Debug (DisabledSkipping (Some "metrics")); Settled 1 Fulfilled]
  /\ Settled 1 Fulfilled
     ∈ [Log Debug (DisabledSkipping (Some "metrics")); Settled 1 Fulfilled].
Proof.
  apply (skips_come_before_every_entry_point
           [logging; metrics] (engine ∅ [])
           [Log Debug (DisabledSkipping (Some "metrics")); Settled 1 Fulfilled]
           [ReturnedSettled 0 Fulfilled; Registered 0; Settled 0 Fulfilled;
            AllSettled Fulfilled]
           0 1 metrics); reflexivity.
Defined.

Lemma function_given_to_use_is_called_by_init_witness :
  exists i e,
    availableExtensions
      (state (ExtensionsManager.init
                (KitesInstance.use
                   (UseFunction (simple_function "hello" (Returns Plain)))
                   (engine ∅ [logging])))) !! i
    = Some e
    /\ Extension.main e
       = MainFunction (simple_function "hello" (Returns Plain))
    /\ Invoke i
       ∈ trace (ExtensionsManager.init
                  (KitesInstance.use
                     (UseFunction (simple_function "hello" (Returns Plain)))
                     (engine ∅ [logging]))).
Proof.
  apply (function_given_to_use_is_called_by_init
           (engine ∅ [logging]) _
           (simple_function "hello" (Returns Plain))
           {| Extension.name := Some "hello";
              Extension.dependencies := [];
              Extension.directory := Some "/app/src";
              Extension.main :=
                MainFunction (simple_function "hello" (Returns Plain));
              Extension.init := None;
              Extension.options := None |}
           (after_discovery (engine ∅ [logging]))
           [Log Debug AutodiscoverOff] []); reflexivity.
Defined.


(** The notifications of [logging; broken; metrics; router]: one for each
    of the two whose entry point returns, although [init] is rejected. *)
Example notifications_after_a_failure :
  promise (ExtensionsManager.init (engine ∅ [logging; broken; metrics; router]))
  = Some (Rejected (NewError ("Error when loading extension broken"
                              +:+ LF +:+ "Error: boom")))
  /\ List.filter (fun ev => match ev with Registered _ => true | _ => false end)
       (trace (ExtensionsManager.init
                 (engine ∅ [logging; broken; metrics; router])))
     = [Registered 0; Registered 3].
Proof. split; reflexivity. Qed.
